(** * kasumiso: page script (script.js)

    A shallow embedding of the image-size calculator, the image optimizer,
    the lazy loader, the accordion and the photo gallery of [script.js],
    followed by the properties the specification states about them.

    JavaScript numbers that take part in divisions (image sizes, quality)
    are IEEE-754 binary64 values, modelled by Rocq's primitive [float].
    The gallery index only ever holds 0, or the result of adding or
    subtracting 1 and an array length and taking a remainder; on such small
    integers binary64 arithmetic is exact, so the index is modelled by an
    integer or NaN ([index_number]).  Strings are byte strings (UTF-8). *)

From Stdlib Require Import ZArith Lia List String Ascii Bool Floats.
From stdpp Require Import gmap strings.

Set Warnings "-inexact-float".

Local Open Scope string_scope.
Local Open Scope Z_scope.

(** ** The JavaScript runtime pieces the script relies on *)

Module Js.

(** *** Math.round on binary64 *)

(** The integer closest to [(-1)^s * m * 2^e], ties going to +infinity. *)
Definition round_half_up (s : bool) (m : positive) (e : Z) : Z :=
  let num := if s then Z.neg m else Z.pos m in
  if 0 <=? e then num * 2 ^ e
  else (2 * num + 2 ^ (- e)) `div` 2 ^ (- e + 1).

(** The binary64 value nearest to an integer (exact below 2^53). *)
Definition of_Z (z : Z) : float :=
  SF2Prim (binary_normalize prec emax z 0 false).

(** [Math.round(x)]: NaN, the infinities and the zeros are returned as
    they are; a negative [x] that rounds to zero gives [-0]. *)
Definition Math_round (x : float) : float :=
  match Prim2SF x with
  | S754_finite s m e =>
      let r := round_half_up s m e in
      if (r =? 0) && s then neg_zero else of_Z r
  | _ => x
  end.

(** *** Values *)

(** The primitive values the script passes around: [undefined], strings
    and numbers. *)
Inductive value :=
| Undefined
| Str (s : string)
| Num (n : float).

(** ToBoolean. *)
Definition truthy (v : value) : bool :=
  match v with
  | Undefined => false
  | Str s => negb (String.eqb s "")
  | Num n => negb (PrimFloat.eqb n 0 || is_nan n)
  end.

(** [a || b] *)
Definition or (a b : value) : value := if truthy a then a else b.

(** *** String to number: parseInt and parseFloat *)

Definition is_ascii_space (c : ascii) : bool :=
  let n := nat_of_ascii c in
  ((9 <=? n) && (n <=? 13))%nat || (n =? 32)%nat.

(** White space and line terminators outside ASCII, by their UTF-8
    encoding: U+00A0 (2 bytes) and U+1680, U+2000..U+200A, U+2028, U+2029,
    U+202F, U+205F, U+3000, U+FEFF (3 bytes). *)
Definition is_space2 (a b : ascii) : bool :=
  ((nat_of_ascii a =? 194) && (nat_of_ascii b =? 160))%nat.

Definition is_space3 (a b c : ascii) : bool :=
  let '(x, y, z) := (nat_of_ascii a, nat_of_ascii b, nat_of_ascii c) in
  ((x =? 225) && (y =? 154) && (z =? 128)
   || (x =? 226) && (y =? 128)
      && ((128 <=? z) && (z <=? 138) || (z =? 168) || (z =? 169) || (z =? 175))
   || (x =? 226) && (y =? 129) && (z =? 159)
   || (x =? 227) && (y =? 128) && (z =? 128)
   || (x =? 239) && (y =? 187) && (z =? 191))%nat.

Fixpoint trim_start (s : string) : string :=
  match s with
  | String a r1 =>
      if is_ascii_space a then trim_start r1
      else match r1 with
           | String b r2 =>
               if is_space2 a b then trim_start r2
               else match r2 with
                    | String c r3 => if is_space3 a b c then trim_start r3 else s
                    | EmptyString => s
                    end
           | EmptyString => s
           end
  | EmptyString => s
  end.

(** The value of a digit in the given radix, if it is one. *)
Definition digit_value (radix : Z) (c : ascii) : option Z :=
  let n := Z.of_nat (nat_of_ascii c) in
  let d := if (48 <=? n) && (n <=? 57) then n - 48
           else if (97 <=? n) && (n <=? 122) then n - 87
           else if (65 <=? n) && (n <=? 90) then n - 55
           else radix in
  if d <? radix then Some d else None.

(** The longest prefix of digits: its value, its length, and the rest. *)
Fixpoint take_digits (radix : Z) (s : string) (acc : Z) (len : nat)
  : Z * nat * string :=
  match s with
  | String c r =>
      match digit_value radix c with
      | Some d => take_digits radix r (acc * radix + d) (S len)
      | None => (acc, len, s)
      end
  | EmptyString => (acc, len, s)
  end.

Definition take_sign (s : string) : bool * string :=
  match s with
  | String "-" r => (true, r)
  | String "+" r => (false, r)
  | _ => (false, s)
  end.

Definition signed_zero (neg : bool) : float := if neg then neg_zero else zero.

(** [parseInt(s)] with no radix argument. *)
Definition parseInt_string (s : string) : float :=
  let '(neg, s1) := take_sign (trim_start s) in
  let '(radix, s2) :=
    match s1 with
    | String "0" (String "x" r) | String "0" (String "X" r) => (16, r)
    | _ => (10, s1)
    end in
  let '(mathInt, len, _) := take_digits radix s2 0 0%nat in
  match len with
  | O => nan
  | _ => if mathInt =? 0 then signed_zero neg
         else of_Z (if neg then - mathInt else mathInt)
  end.

(** The binary64 value nearest to [(-1)^neg * m * 10^e]. *)
Definition of_decimal (neg : bool) (m : positive) (e : Z) : float :=
  if 0 <=? e then
    SF2Prim (binary_normalize prec emax
               ((if neg then Z.neg m else Z.pos m) * 10 ^ e) 0 false)
  else
    SF2Prim (SFdiv prec emax (S754_finite neg m 0)
               (S754_finite false (Z.to_pos (10 ^ (- e))) 0)).

(** The exponent part [e[+-]digits] of a decimal literal; when it is not
    complete, the literal ends before it. *)
Definition take_exponent (s : string) : Z :=
  match s with
  | String "e" r | String "E" r =>
      let '(neg, r1) := take_sign r in
      let '(x, len, _) := take_digits 10 r1 0 0%nat in
      match len with
      | O => 0
      | _ => if neg then - x else x
      end
  | _ => 0
  end.

(** [parseFloat(s)]: the longest prefix that is a decimal literal. *)
Definition parseFloat_string (s : string) : float :=
  let '(neg, s1) := take_sign (trim_start s) in
  if String.prefix "Infinity" s1 then
    (if neg then neg_infinity else infinity)
  else
    let '(int_part, len1, s2) := take_digits 10 s1 0 0%nat in
    let '(mant, len2, s3) :=
      match s2 with
      | String "." r => take_digits 10 r int_part 0%nat
      | _ => (int_part, 0%nat, s2)
      end in
    match (len1 + len2)%nat with
    | O => nan
    | _ =>
        match mant with
        | Z.pos m => of_decimal neg m (take_exponent s3 - Z.of_nat len2)
        | _ => signed_zero neg
        end
    end.

End Js.

Import Js.

(** ** Shared result types *)

(** The exception the script can run into: reading a property of
    [undefined]. *)
Inductive exception := TypeError.

(** A promise: pending, fulfilled with a value, or rejected. *)
Inductive promise :=
| Pending
| Fulfilled (v : value)
| Rejected (e : exception).

(** How a call of a function of the script ends: it returns (an async
    function fulfils its promise), it throws (an async function rejects its
    promise), or it waits for ever for a promise that is never settled. *)
Inductive completion :=
| Done
| Threw (e : exception)
| Stalled.

(** ** Size calculator *)

Record Size := { width : float; height : float }.

Definition calculateOptimalSize (originalWidth originalHeight maxWidth : float)
  : Size :=
  if (originalWidth <=? maxWidth)%float then
    {| width := originalWidth; height := originalHeight |}
  else
    let ratio := (originalWidth / originalHeight)%float in
    let width := maxWidth in
    let height := Math_round (width / ratio)%float in
    {| width := width; height := height |}.

(** The height the specification describes: [maxWidth * originalHeight /
    originalWidth] computed exactly on integers and rounded half-up. *)
Definition exact_scaled_height (originalWidth originalHeight maxWidth : Z) : Z :=
  (2 * maxWidth * originalHeight + originalWidth) `div` (2 * originalWidth).


(** ** Accordion *)

(** One [.accordion-item]: whether it and its [.accordion-content] carry the
    class [active], and the text of its [.accordion-icon]. *)
Record AccordionItem := {
  item_active : bool;
  content_active : bool;
  icon_text : string
}.

Definition close_item (item : AccordionItem) : AccordionItem :=
  {| item_active := false; content_active := false; icon_text := "+" |}.

Definition open_item (item : AccordionItem) : AccordionItem :=
  {| item_active := true; content_active := true; icon_text := "×" |}.

(** [toggleAccordion(index)] on the list of accordion items of the page;
    [None] is the TypeError of [accordionItems[index]] being [undefined]. *)
Definition toggleAccordion (index : nat) (accordionItems : list AccordionItem)
  : option (list AccordionItem) :=
  match accordionItems !! index with
  | None => None
  | Some currentItem =>
      let isActive := item_active currentItem in
      let closed := close_item <$> accordionItems in
      if negb isActive then Some (alter open_item index closed)
      else Some closed
  end.

Definition expanded (items : list AccordionItem) (i : nat) : Prop :=
  exists item, items !! i = Some item /\ item_active item = true.

Definition collapsed (items : list AccordionItem) : Prop :=
  Forall (fun item => item = close_item item) items.

(** ** Gallery data *)

Definition galleryData : gmap string (list string) :=
  list_to_map
    [ ("sakura", [ "imgs/sharehouses/sakura/exterior.jpg";
                   "imgs/sharehouses/sakura/living.jpg";
                   "imgs/sharehouses/sakura/garden.jpg";
                   "imgs/sharehouses/sakura/room.jpg";
                   "imgs/sharehouses/sakura/tea-room.jpg" ]);
      ("bamboo", [ "imgs/sharehouses/bamboo/exterior.jpg";
                   "imgs/sharehouses/bamboo/irori.jpg";
                   "imgs/sharehouses/bamboo/bamboo-garden.jpg";
                   "imgs/sharehouses/bamboo/room.jpg";
                   "imgs/sharehouses/bamboo/study.jpg" ]);
      ("moon",   [ "imgs/sharehouses/moon/exterior.jpg";
                   "imgs/sharehouses/moon/moon-deck.jpg";
                   "imgs/sharehouses/moon/kitchen.jpg";
                   "imgs/sharehouses/moon/room.jpg";
                   "imgs/sharehouses/moon/meditation.jpg" ]) ].

(** [galleryData] is an object literal, so reading a property that it does
    not own continues in [Object.prototype].  Its members are functions
    (given here with their [length]), and [__proto__] yields the prototype
    object itself. *)
Inductive proto_member :=
| Method (arity : Z)
| ProtoObject.

Definition Object_prototype : gmap string proto_member :=
  list_to_map
    [ ("constructor", Method 1);
      ("hasOwnProperty", Method 1);
      ("isPrototypeOf", Method 1);
      ("propertyIsEnumerable", Method 1);
      ("toLocaleString", Method 0);
      ("toString", Method 0);
      ("valueOf", Method 0);
      ("__defineGetter__", Method 2);
      ("__defineSetter__", Method 2);
      ("__lookupGetter__", Method 1);
      ("__lookupSetter__", Method 1);
      ("__proto__", ProtoObject) ].

(** What [galleryData[houseType]] can evaluate to. *)
Inductive collection :=
| NoCollection                      (* undefined *)
| Images (items : list string)      (* one of the configured arrays *)
| Inherited (m : proto_member).

Definition galleryData_get (houseType : string) : collection :=
  match galleryData !! houseType with
  | Some items => Images items
  | None =>
      match Object_prototype !! houseType with
      | Some m => Inherited m
      | None => NoCollection
      end
  end.

(** The number held by [currentImageIndex]. *)
Inductive index_number :=
| Int (z : Z)
| NotANumber.

Definition num_add (a b : index_number) : index_number :=
  match a, b with
  | Int x, Int y => Int (x + y)
  | _, _ => NotANumber
  end.

Definition num_sub (a b : index_number) : index_number :=
  match a, b with
  | Int x, Int y => Int (x - y)
  | _, _ => NotANumber
  end.

(** [a % b]: the remainder has the sign of [a]; a zero divisor gives NaN. *)
Definition num_rem (a b : index_number) : index_number :=
  match a, b with
  | Int x, Int y => if y =? 0 then NotANumber else Int (Z.rem x y)
  | _, _ => NotANumber
  end.

(** [currentGallery.length]; on a [length] that is [undefined] the
    arithmetic around it sees NaN. *)
Definition collection_length (g : collection) : option index_number :=
  match g with
  | NoCollection => None
  | Images items => Some (Int (Z.of_nat (length items)))
  | Inherited (Method arity) => Some (Int arity)
  | Inherited ProtoObject => Some NotANumber
  end.

(** [currentGallery[currentImageIndex]]; [None] is the TypeError of indexing
    [undefined]. *)
Definition collection_at (g : collection) (i : index_number) : option value :=
  match g with
  | NoCollection => None
  | Images items =>
      match i with
      | Int z =>
          if 0 <=? z then
            match items !! Z.to_nat z with
            | Some s => Some (Str s)
            | None => Some Undefined
            end
          else Some Undefined
      | NotANumber => Some Undefined
      end
  | Inherited _ => Some Undefined
  end.

(** ** Page state touched by the gallery *)

(** The [img] that the markup of [#gallery-images] creates, as far as the
    script touches it afterwards: its inline opacity and transition (empty
    when not set) and whether the fade-in [onload] handler is installed. *)
Record Photo := {
  photo_opacity : string;
  photo_transition : string;
  photo_onload : bool
}.

(** [gallery_images] is the markup last assigned to the [innerHTML] of
    [#gallery-images]; [gallery_photo] is the [img] of that markup once the
    script has taken hold of it ([None] right after an assignment). *)
Record Page := {
  currentGallery : collection;
  currentImageIndex : index_number;
  modal_display : string;              (* #gallery-modal, style.display *)
  body_overflow : string;              (* document.body, style.overflow *)
  keydown_listeners : gset string;     (* keydown listeners of document *)
  gallery_images : string;             (* #gallery-images, innerHTML *)
  gallery_photo : option Photo         (* the img inside #gallery-images *)
}.

(** The script starts with [currentGallery = []] and
    [currentImageIndex = 0]; the rest is whatever the page ships with. *)
Definition initial_page (display overflow html : string) : Page :=
  {| currentGallery := Images [];
     currentImageIndex := Int 0;
     modal_display := display;
     body_overflow := overflow;
     keydown_listeners := ∅;
     gallery_images := html;
     gallery_photo := None |}.

Definition set_gallery (g : collection) (i : index_number) (p : Page) : Page :=
  {| currentGallery := g;
     currentImageIndex := i;
     modal_display := modal_display p;
     body_overflow := body_overflow p;
     keydown_listeners := keydown_listeners p;
     gallery_images := gallery_images p;
     gallery_photo := gallery_photo p |}.

Definition set_index (i : index_number) (p : Page) : Page :=
  set_gallery (currentGallery p) i p.

(** [galleryImages.innerHTML = html]: the former children are gone. *)
Definition set_gallery_images (html : string) (p : Page) : Page :=
  {| currentGallery := currentGallery p;
     currentImageIndex := currentImageIndex p;
     modal_display := modal_display p;
     body_overflow := body_overflow p;
     keydown_listeners := keydown_listeners p;
     gallery_images := html;
     gallery_photo := None |}.

Definition set_gallery_photo (photo : Photo) (p : Page) : Page :=
  {| currentGallery := currentGallery p;
     currentImageIndex := currentImageIndex p;
     modal_display := modal_display p;
     body_overflow := body_overflow p;
     keydown_listeners := keydown_listeners p;
     gallery_images := gallery_images p;
     gallery_photo := Some photo |}.

(** [img.style.opacity = '0'] and [img.onload = function() {...}] on the
    [img] just created. *)
Definition fading_photo : Photo :=
  {| photo_opacity := "0"; photo_transition := ""; photo_onload := true |}.

(** The [img] of the fallback markup, which is left as it is. *)
Definition plain_photo : Photo :=
  {| photo_opacity := ""; photo_transition := ""; photo_onload := false |}.

(** The [load] event of the [img] inside [#gallery-images]: the handler
    installed by the display routine, if there is one, fades the image in. *)
Definition photo_load (p : Page) : Page :=
  match gallery_photo p with
  | Some photo =>
      if photo_onload photo then
        set_gallery_photo
          {| photo_opacity := "1";
             photo_transition := "opacity 0.3s ease";
             photo_onload := true |} p
      else p
  | None => p
  end.

Definition set_modal (display overflow : string) (listeners : gset string)
  (p : Page) : Page :=
  {| currentGallery := currentGallery p;
     currentImageIndex := currentImageIndex p;
     modal_display := display;
     body_overflow := overflow;
     keydown_listeners := listeners;
     gallery_images := gallery_images p;
     gallery_photo := gallery_photo p |}.

Definition dq : string := String (ascii_of_nat 34) "".
Definition nl : string := String (ascii_of_nat 10) "".

Definition loading_html : string :=
  nl ++ "        <div class=" ++ dq ++ "loading" ++ dq ++ ">" ++
  nl ++ "            <div class=" ++ dq ++ "loading-spinner" ++ dq ++ "></div>" ++
  nl ++ "            <p>読み込み中...</p>" ++
  nl ++ "        </div>" ++
  nl ++ "    ".

Definition img_html (src : string) : string :=
  "<img src=" ++ dq ++ src ++ dq ++ " alt=" ++ dq ++ "シェアハウス写真" ++ dq ++ ">".

(** ** One [img] element handled by the lazy loader *)

Record ImgElement := {
  dataset : gmap string string;        (* the data-* attributes *)
  src : string;
  style_opacity : string;
  style_filter : string;
  style_transition : string
}.

(** [imgElement.dataset.name] *)
Definition dataset_get (imgElement : ImgElement) (name : string) : value :=
  match dataset imgElement !! name with
  | Some s => Str s
  | None => Undefined
  end.

(** What the browser reports for an image whose [src] was set: [load] with
    the decoded width and height, or [error]. *)
Inductive image_event :=
| load (img_width img_height : float)
| error.

(** ** Optimizer, lazy loader and gallery, in a given browser *)

(** The async functions are run to their end: an [await] continues with
    the state the awaited promise has once the browser has reported on the
    image, so a function is a map from the page state before the call to its
    completion and the page state after it.  Calls are not interleaved. *)

Section Browser.

(** The event the browser fires for an image with the given source. *)
Variable decode : value -> image_event.
(** [canvas.toDataURL('image/jpeg', quality)] after the image with the
    given source was drawn on a canvas of the given size. *)
Variable toDataURL : value -> Size -> float -> string.
(** Number::toString of the engine. *)
Variable Number_toString : float -> string.

Definition ToString (v : value) : string :=
  match v with
  | Undefined => "undefined"
  | Str s => s
  | Num n => Number_toString n
  end.

Definition parseInt (v : value) : float := parseInt_string (ToString v).
Definition parseFloat (v : value) : float := parseFloat_string (ToString v).

(** *** optimizeImage *)

(** [resolve(v)] settles a pending promise and leaves a settled one. *)
Definition resolve (v : value) (p : promise) : promise :=
  match p with
  | Pending => Fulfilled v
  | _ => p
  end.

Definition onload (src : value) (maxWidth quality : float)
  (img_width img_height : float) (p : promise) : promise :=
  let size := calculateOptimalSize img_width img_height maxWidth in
  let optimizedDataUrl := toDataURL src size quality in
  resolve (Str optimizedDataUrl) p.

Definition onerror (src : value) (p : promise) : promise :=
  resolve src p.

(** The promise when [optimizeImage] returns: the executor has created the
    image, installed both handlers and set [img.src]; nothing is settled. *)
Definition optimizeImage_returned (src : value) (maxWidth quality : float)
  : promise := Pending.

(** The promise after the browser has delivered an event to the image. *)
Definition deliver (ev : image_event) (src : value) (maxWidth quality : float)
  (p : promise) : promise :=
  match ev with
  | load img_width img_height =>
      onload src maxWidth quality img_width img_height p
  | error => onerror src p
  end.

(** The promise after a sequence of events. *)
Definition deliver_all (evs : list image_event) (src : value)
  (maxWidth quality : float) (p : promise) : promise :=
  fold_left (fun q ev => deliver ev src maxWidth quality q) evs p.

(** [await optimizeImage(src, maxWidth, quality)]: the promise once the
    browser has reported on the image. *)
Definition optimizeImage (src : value) (maxWidth quality : float) : promise :=
  deliver (decode src) src maxWidth quality
    (optimizeImage_returned src maxWidth quality).

(** *** loadOptimizedImage *)

(** The arguments of the call of [optimizeImage]. *)
Definition optimizer_call (imgElement : ImgElement) : value * float * float :=
  let originalSrc := dataset_get imgElement "src" in
  let maxWidth := Js.or (dataset_get imgElement "maxWidth") (Num 800) in
  let quality := Js.or (dataset_get imgElement "quality") (Num 0.8) in
  (originalSrc, parseInt maxWidth, parseFloat quality).

Definition show_loading (imgElement : ImgElement) : ImgElement :=
  {| dataset := dataset imgElement;
     src := src imgElement;
     style_opacity := "0.5";
     style_filter := "blur(5px)";
     style_transition := style_transition imgElement |}.

Definition show_loaded (new_src : value) (transition : string)
  (imgElement : ImgElement) : ImgElement :=
  {| dataset := delete "src" (dataset imgElement);
     src := ToString new_src;
     style_opacity := "1";
     style_filter := "none";
     style_transition := transition |}.

Definition loadOptimizedImage (imgElement : ImgElement)
  : completion * ImgElement :=
  let '(originalSrc, maxWidth, quality) := optimizer_call imgElement in
  let loading := show_loading imgElement in
  match optimizeImage originalSrc maxWidth quality with
  | Fulfilled optimizedSrc =>
      (Done, show_loaded optimizedSrc
               "opacity 0.3s ease, filter 0.3s ease" loading)
  | Rejected _ =>
      (Done, show_loaded originalSrc (style_transition loading) loading)
  | Pending => (Stalled, loading)
  end.

(** *** Gallery *)

Definition displayOptimizedImage (p : Page) : completion * Page :=
  match collection_at (currentGallery p) (currentImageIndex p) with
  | None => (Threw TypeError, p)
  | Some originalSrc =>
      let p1 := set_gallery_images loading_html p in
      match optimizeImage originalSrc 800 0.9 with
      | Fulfilled optimizedSrc =>
          (Done, set_gallery_photo fading_photo
                   (set_gallery_images (img_html (ToString optimizedSrc)) p1))
      | Rejected _ =>
          (Done, set_gallery_photo plain_photo
                   (set_gallery_images (img_html (ToString originalSrc)) p1))
      | Pending => (Stalled, p1)
      end
  end.

Definition openGallery (houseType : string) (p : Page) : completion * Page :=
  let p1 := set_gallery (galleryData_get houseType) (Int 0) p in
  match displayOptimizedImage p1 with
  | (Done, p2) =>
      (Done, set_modal "block" "hidden"
               ({[ "handleKeyPress" ]} ∪ keydown_listeners p2) p2)
  | stopped => stopped
  end.

Definition closeGallery (p : Page) : Page :=
  set_modal "none" "auto" (keydown_listeners p ∖ {[ "handleKeyPress" ]}) p.

Definition prevImage (p : Page) : completion * Page :=
  match collection_length (currentGallery p) with
  | None => (Threw TypeError, p)
  | Some len =>
      let i := num_rem (num_add (num_sub (currentImageIndex p) (Int 1)) len)
                 len in
      displayOptimizedImage (set_index i p)
  end.

Definition nextImage (p : Page) : completion * Page :=
  match collection_length (currentGallery p) with
  | None => (Threw TypeError, p)
  | Some len =>
      let i := num_rem (num_add (currentImageIndex p) (Int 1)) len in
      displayOptimizedImage (set_index i p)
  end.

(** The promises of [prevImage()] and [nextImage()] are dropped: a
    rejection does not reach the handler. *)
Definition handleKeyPress (key : string) (p : Page) : Page :=
  if String.eqb key "Escape" then closeGallery p
  else if String.eqb key "ArrowLeft" then snd (prevImage p)
  else if String.eqb key "ArrowRight" then snd (nextImage p)
  else p.

End Browser.

(** ** Responsive widths and the lazy-loading observer *)

(** The maximal width [handleResponsiveImages] picks for a window width. *)
Definition responsive_maxWidth (screenWidth : float) : float :=
  if (screenWidth <? 768)%float then 400%float
  else if (screenWidth <? 1200)%float then 600%float
  else 800%float.

(** Whether an image matches the selector [img[data-src]]. *)
Definition has_data_src (imgElement : ImgElement) : bool :=
  match dataset imgElement !! "src" with
  | Some _ => true
  | None => false
  end.

(** The images of the page are numbered in document order.  One entry of
    the batch the intersection observer hands to its callback. *)
Record IntersectionEntry := {
  target : nat;
  isIntersecting : bool
}.

(** A call of [loadOptimizedImage] that has started and waits for the
    optimizer: the image it is for and the arguments it captured. *)
Record PendingLoad := {
  load_target : nat;
  load_src : value;
  load_maxWidth : float;
  load_quality : float
}.

(** The images of the page, the images the observer is watching, and the
    loads that have started and not finished, oldest first. *)
Record LazyState := {
  page_images : list ImgElement;
  observed : gset nat;
  loading : list PendingLoad
}.

(** The positions of the images matching [img[data-src]], counted from
    [first]. *)
Fixpoint data_src_images (first : nat) (images : list ImgElement) : gset nat :=
  match images with
  | [] => ∅
  | img :: rest =>
      (if has_data_src img then {[ first ]} else ∅)
      ∪ data_src_images (S first) rest
  end.

(** [setupLazyLoading()]: every [img[data-src]] is observed. *)
Definition setupLazyLoading (images : list ImgElement) : LazyState :=
  {| page_images := images;
     observed := data_src_images 0 images;
     loading := [] |}.

Section Controllers.

Variable decode : value -> image_event.
Variable toDataURL : value -> Size -> float -> string.
Variable Number_toString : float -> string.

(** [img.dataset.maxWidth = maxWidth] *)
Definition set_dataset_maxWidth (maxWidth : float) (imgElement : ImgElement)
  : ImgElement :=
  {| dataset := <[ "maxWidth" := Number_toString maxWidth ]> (dataset imgElement);
     src := src imgElement;
     style_opacity := style_opacity imgElement;
     style_filter := style_filter imgElement;
     style_transition := style_transition imgElement |}.

(** [handleResponsiveImages()] in a window of the given inner width. *)
Definition handleResponsiveImages (screenWidth : float)
  (images : list ImgElement) : list ImgElement :=
  (fun img =>
     if has_data_src img
     then set_dataset_maxWidth (responsive_maxWidth screenWidth) img
     else img) <$> images.

(** The part of [loadOptimizedImage] that runs before its [await]: the
    arguments of the optimizer are read, and the image is dimmed and
    blurred ([show_loading]). *)
Definition start_load (target : nat) (imgElement : ImgElement) : PendingLoad :=
  let '(originalSrc, maxWidth, quality) :=
    optimizer_call Number_toString imgElement in
  {| load_target := target;
     load_src := originalSrc;
     load_maxWidth := maxWidth;
     load_quality := quality |}.

(** The part that runs when the promise of the optimizer is settled, on the
    image as it is then. *)
Definition finish_load (images : list ImgElement) (pending : PendingLoad)
  : list ImgElement :=
  match optimizeImage decode toDataURL (load_src pending)
          (load_maxWidth pending) (load_quality pending) with
  | Fulfilled optimizedSrc =>
      alter (show_loaded Number_toString optimizedSrc
               "opacity 0.3s ease, filter 0.3s ease")
        (load_target pending) images
  | Rejected _ =>
      alter (fun img => show_loaded Number_toString (load_src pending)
                          (style_transition img) img)
        (load_target pending) images
  | Pending => images
  end.

Definition finish_loads (pending : list PendingLoad)
  (images : list ImgElement) : list ImgElement :=
  fold_left finish_load pending images.

(** The body of the observer callback for one entry: for an intersecting
    target, [loadOptimizedImage] is called and not awaited, so only its
    first part runs, and the target is not observed any longer.  (An entry
    always names an image of the page; another number changes nothing.) *)
Definition on_entry (st : LazyState) (entry : IntersectionEntry) : LazyState :=
  if isIntersecting entry then
    match page_images st !! target entry with
    | Some img =>
        {| page_images :=
             <[ target entry := show_loading img ]> (page_images st);
           observed := observed st ∖ {[ target entry ]};
           loading := loading st ++ [start_load (target entry) img] |}
    | None => st
    end
  else st.

(** The observer callback on a batch of entries. *)
Definition observer_callback (entries : list IntersectionEntry)
  (st : LazyState) : LazyState :=
  fold_left on_entry entries st.

(** All the loads that have started run to their end. *)
Definition settle (st : LazyState) : LazyState :=
  {| page_images := finish_loads (loading st) (page_images st);
     observed := observed st;
     loading := [] |}.

(** A window resize while the observer is at work. *)
Definition on_resize (screenWidth : float) (st : LazyState) : LazyState :=
  {| page_images := handleResponsiveImages screenWidth (page_images st);
     observed := observed st;
     loading := loading st |}.

(** What happens to the lazily loaded images after the set-up: the observer
    reports a batch of entries, whose loads then run to their end, or the
    window is resized. *)
Inductive lazy_event :=
| Intersections (entries : list IntersectionEntry)
| Resized (screenWidth : float).

Definition lazy_step (st : LazyState) (ev : lazy_event) : LazyState :=
  match ev with
  | Intersections entries => settle (observer_callback entries st)
  | Resized screenWidth => on_resize screenWidth st
  end.

Definition lazy_run (evs : list lazy_event) (st : LazyState) : LazyState :=
  fold_left lazy_step evs st.

(** *** Sequences of gallery operations *)

(** [k] calls of [nextImage()], each awaited. *)
Fixpoint next_times (k : nat) (p : Page) : Page :=
  match k with
  | O => p
  | S k' => next_times k' (snd (nextImage decode toDataURL Number_toString p))
  end.

(** The key-press handler on a sequence of keys. *)
Definition key_presses (keys : list string) (p : Page) : Page :=
  fold_left (fun q key => handleKeyPress decode toDataURL Number_toString key q)
    keys p.

End Controllers.

(** ** Scroll animation *)

(** The inline style the page-load handler gives to an [.accordion-item]
    or a [.section-title]. *)
Record Animated := {
  anim_opacity : string;
  anim_transform : string;
  anim_transition : string
}.

Definition hide (el : Animated) : Animated :=
  {| anim_opacity := "0";
     anim_transform := "translateY(30px)";
     anim_transition := "opacity 0.6s ease, transform 0.6s ease" |}.

Definition reveal (el : Animated) : Animated :=
  {| anim_opacity := "1";
     anim_transform := "translateY(0)";
     anim_transition := anim_transition el |}.

(** The set-up at page load: every element is hidden and observed. *)
Definition animate_setup (els : list Animated) : list Animated :=
  hide <$> els.

(** The callback of the animation observer, for one entry and for a batch;
    the elements are numbered in document order. *)
Definition animate_entry (els : list Animated) (entry : IntersectionEntry)
  : list Animated :=
  if isIntersecting entry then alter reveal (target entry) els else els.

Definition animate_callback (entries : list IntersectionEntry)
  (els : list Animated) : list Animated :=
  fold_left animate_entry entries els.

(** All batches that the observer reports, one after the other. *)
Definition animate_run (batches : list (list IntersectionEntry))
  (els : list Animated) : list Animated :=
  fold_left (fun st entries => animate_callback entries st) batches els.

(** *** States of the accordion and of the gallery *)

(** The icon and the content of an item agree with the item. *)
Definition consistent_item (item : AccordionItem) : Prop :=
  content_active item = item_active item /\
  icon_text item = if item_active item then "×" else "+".

(** The observer watches exactly the images that still carry a deferred
    source. *)
Definition observes_pending (st : LazyState) : Prop :=
  forall i, i ∈ observed st <->
            exists img, page_images st !! i = Some img /\ has_data_src img = true.

(** The gallery shows a non-empty collection and the index names one of its
    images. *)
Definition valid_gallery (p : Page) : Prop :=
  exists items i,
    currentGallery p = Images items /\
    currentImageIndex p = Int i /\
    0 <= i < Z.of_nat (length items).

(** ** Sample browsers, to run the definitions on *)

(** A browser in which no image can be loaded. *)
Definition decode_fails (source : value) : image_event := error.

(** A browser in which every image decodes to 1600 x 900 pixels. *)
Definition decode_1600x900 (source : value) : image_event := load 1600 900.

Definition sample_toDataURL (source : value) (size : Size) (quality : float)
  : string := "data:image/jpeg;base64,/9j/4AAQ".

(** Number::toString at the two numbers the script converts, 800 and 0.8. *)
Definition sample_Number_toString (n : float) : string :=
  if (n =? 800)%float then "800" else "0.8".

Definition closed_page : Page := initial_page "none" "auto" "".

(** A lazily loaded image whose overrides are both "0", and one that has
    an empty max-width override and no quality override. *)
Definition zero_override_img : ImgElement :=
  {| dataset := list_to_map [ ("src", "imgs/hero/hero-bg.jpg");
                              ("maxWidth", "0"); ("quality", "0") ];
     src := ""; style_opacity := ""; style_filter := "";
     style_transition := "" |}.

Definition empty_override_img : ImgElement :=
  {| dataset := list_to_map [ ("src", "imgs/hero/hero-bg.jpg");
                              ("maxWidth", "") ];
     src := ""; style_opacity := ""; style_filter := "";
     style_transition := "" |}.

(** An accordion of three items, the second one expanded. *)
Definition three_items : list AccordionItem :=
  [ {| item_active := false; content_active := false; icon_text := "+" |};
    {| item_active := true; content_active := true; icon_text := "×" |};
    {| item_active := false; content_active := false; icon_text := "+" |} ].

(** A page showing the image at index [i] of a three-image collection. *)
Definition abc_page (i : Z) : Page :=
  set_gallery (Images ["a.jpg"; "b.jpg"; "c.jpg"]) (Int i) closed_page.

(** Number::toString at the three widths [handleResponsiveImages] writes. *)
Definition sample_width_toString (n : float) : string :=
  if (n =? 400)%float then "400"
  else if (n =? 600)%float then "600"
  else "800".

(** A page with two lazily loaded images, just set up. *)
Definition two_lazy_images : LazyState :=
  setupLazyLoading [zero_override_img; empty_override_img].

(** * Properties *)

(** ** Size calculator *)

Lemma SFcompare_Lt_not_le (x y : spec_float) :
  SFcompare x y = Some Lt -> SFleb y x = false.
Proof.
  unfold SFleb.
  destruct x as [sx|sx| |sx mx ex], y as [sy|sy| |sy my ey]; simpl;
    try discriminate; try (destruct sx); try (destruct sy);
    try discriminate; try reflexivity.
  - rewrite (Z.compare_antisym ey ex).
    destruct (ey ?= ex)%Z eqn:He; simpl; try discriminate; try reflexivity.
    change (Pos.compare_cont Eq mx my) with (mx ?= my)%positive.
    change (Pos.compare_cont Eq my mx) with (my ?= mx)%positive.
    rewrite (Pos.compare_antisym my mx).
    destruct (my ?= mx)%positive; simpl; try discriminate; reflexivity.
  - rewrite (Z.compare_antisym ey ex).
    destruct (ey ?= ex)%Z eqn:He; simpl; try discriminate; try reflexivity.
    change (Pos.compare_cont Eq mx my) with (mx ?= my)%positive.
    change (Pos.compare_cont Eq my mx) with (my ?= mx)%positive.
    rewrite (Pos.compare_antisym my mx).
    destruct (my ?= mx)%positive; simpl; try discriminate; reflexivity.
Qed.


(** In binary64, [a < b] excludes [b <= a]. *)
Lemma float_lt_not_le (a b : float) :
  (a <? b)%float = true -> (b <=? a)%float = false.
Proof.
  rewrite ltb_spec, leb_spec. unfold SFltb. intros H.
  apply SFcompare_Lt_not_le.
  destruct (SFcompare (Prim2SF a) (Prim2SF b)) as [[]|]; try discriminate.
  reflexivity.
Qed.

(** The two computations side by side, for an 800 x 11 image and a maximal
    width of 400. *)
Example calculateOptimalSize_800_11_400 :
  calculateOptimalSize 800 11 400 = {| width := 400; height := 5 |} /\
  (400 / (800 / 11))%float = 5.499999999999999%float /\
  exact_scaled_height 800 11 400 = 6.
Proof. repeat split; vm_compute; reflexivity. Qed.


(** Above the maximal width the code takes its second branch. *)
Lemma calculateOptimalSize_above (originalWidth originalHeight maxWidth : float) :
  (maxWidth <? originalWidth)%float = true ->
  calculateOptimalSize originalWidth originalHeight maxWidth
  = {| width := maxWidth;
       height := Math_round (maxWidth / (originalWidth / originalHeight))%float |}.
Proof.
  intros H. unfold calculateOptimalSize.
  rewrite (float_lt_not_le _ _ H). reflexivity.
Qed.

(** *** The two binary64 divisions, followed through the rounding code

    What follows relates [Math.round(maxWidth / (originalWidth /
    originalHeight))] to the exact quotient for integer dimensions.  Each
    division is correctly rounded, so it is off by a factor between
    [1 - 2^-53] and [1 + 2^-53]; the quotient of the code is therefore the
    exact one up to a factor between [(2^53 - 1) / (2^53 + 1)] and its
    inverse, which cannot move it across a half-integer unless it sits on
    one. *)


























(** C2: an image that is not wider than the maximal width keeps its
    dimensions. *)
Theorem calculateOptimalSize_no_upscale (originalWidth originalHeight maxWidth : float) :
  (originalWidth <=? maxWidth)%float = true ->
  calculateOptimalSize originalWidth originalHeight maxWidth
  = {| width := originalWidth; height := originalHeight |}.
Proof.
  intros H. unfold calculateOptimalSize. rewrite H. reflexivity.
Qed.

Lemma calculateOptimalSize_no_upscale_600_400_800 :
  (600 <=? 800)%float = true /\
  calculateOptimalSize 600 400 800 = {| width := 600; height := 400 |}.
Proof.
  split; [reflexivity|].
  apply (calculateOptimalSize_no_upscale 600 400 800). reflexivity.
Defined.

(** ** Image optimizer *)

Section OptimizerProperties.

Variable decode : value -> image_event.
Variable toDataURL : value -> Size -> float -> string.

(** Whatever event the browser delivers, a pending promise becomes
    fulfilled. *)
Lemma deliver_fulfils (ev : image_event) (src : value) (maxWidth quality : float) :
  exists v, deliver toDataURL ev src maxWidth quality Pending = Fulfilled v.
Proof.
  destruct ev as [w h|]; simpl.
  - unfold onload. simpl. eauto.
  - unfold onerror. simpl. eauto.
Qed.

(** Hence the awaited promise of [optimizeImage] is fulfilled. *)
Lemma optimizeImage_fulfils (src : value) (maxWidth quality : float) :
  exists v, optimizeImage decode toDataURL src maxWidth quality = Fulfilled v.
Proof. apply deliver_fulfils. Qed.

(** A promise is never turned into a rejected one. *)
Lemma deliver_never_rejects (ev : image_event) (src : value)
  (maxWidth quality : float) (p : promise) (e : exception) :
  (forall e', p <> Rejected e') ->
  deliver toDataURL ev src maxWidth quality p <> Rejected e.
Proof.
  intros Hp. destruct ev as [w h|], p as [|v|e0]; simpl;
    unfold onload, onerror; simpl; try discriminate.
  - apply Hp.
  - apply Hp.
Qed.

(** Nor does a sequence of events. *)
Lemma deliver_all_never_rejects (evs : list image_event) (src : value)
  (maxWidth quality : float) (p : promise) :
  (forall e, p <> Rejected e) ->
  forall e, deliver_all toDataURL evs src maxWidth quality p <> Rejected e.
Proof.
  revert p. induction evs as [|ev evs IH]; intros p Hp e; simpl.
  - apply Hp.
  - apply IH. intros e'. apply deliver_never_rejects. exact Hp.
Qed.

(** C3: the promise of [optimizeImage] is pending when the call returns,
    is fulfilled once the browser has reported on the image, whichever
    event that is, is not rejected by any event, and after a decode failure
    holds the source it was given. *)
Theorem optimizeImage_always_resolves (src : value) (maxWidth quality : float) :
  optimizeImage_returned src maxWidth quality = Pending /\
  (forall ev, exists v,
      deliver toDataURL ev src maxWidth quality
        (optimizeImage_returned src maxWidth quality) = Fulfilled v) /\
  (exists v, optimizeImage decode toDataURL src maxWidth quality = Fulfilled v) /\
  (forall evs e,
      deliver_all toDataURL evs src maxWidth quality
        (optimizeImage_returned src maxWidth quality) <> Rejected e) /\
  (forall e, optimizeImage decode toDataURL src maxWidth quality <> Rejected e) /\
  (decode src = error ->
   optimizeImage decode toDataURL src maxWidth quality = Fulfilled src).
Proof.
  unfold optimizeImage, optimizeImage_returned.
  split; [reflexivity|].
  split; [intros ev; apply deliver_fulfils|].
  split; [apply optimizeImage_fulfils|].
  split; [intros evs e; apply deliver_all_never_rejects; discriminate|].
  split; [intros e; apply deliver_never_rejects; discriminate|].
  intros ->. reflexivity.
Qed.

End OptimizerProperties.

Lemma optimizeImage_invalid_source :
  decode_fails (Str "no-such-image.jpg") = error /\
  optimizeImage decode_fails sample_toDataURL (Str "no-such-image.jpg") 800 0.8
  = Fulfilled (Str "no-such-image.jpg").
Proof.
  split; [reflexivity|].
  apply (optimizeImage_always_resolves decode_fails sample_toDataURL
           (Str "no-such-image.jpg") 800 0.8).
  reflexivity.
Defined.

(** ** Gallery *)

Section GalleryProperties.

Variable decode : value -> image_event.
Variable toDataURL : value -> Size -> float -> string.
Variable Number_toString : float -> string.

Local Abbreviation display := (displayOptimizedImage decode toDataURL Number_toString).
Local Abbreviation next := (nextImage decode toDataURL Number_toString).
Local Abbreviation prev := (prevImage decode toDataURL Number_toString).
Local Abbreviation open := (openGallery decode toDataURL Number_toString).
Local Abbreviation keypress := (handleKeyPress decode toDataURL Number_toString).

(** The display routine writes to [#gallery-images] only. *)
Lemma display_frame (p : Page) :
  let p' := snd (display p) in
  currentGallery p' = currentGallery p /\
  currentImageIndex p' = currentImageIndex p /\
  modal_display p' = modal_display p /\
  body_overflow p' = body_overflow p /\
  keydown_listeners p' = keydown_listeners p.
Proof.
  unfold displayOptimizedImage.
  destruct (collection_at _ _) as [originalSrc|]; [|simpl; tauto].
  destruct (optimizeImage _ _ _ _ _); simpl; tauto.
Qed.

(** It throws exactly when there is no collection, and never stalls. *)
Lemma display_completion (p : Page) :
  fst (display p)
  = match currentGallery p with NoCollection => Threw TypeError | _ => Done end.
Proof.
  unfold displayOptimizedImage.
  destruct (currentGallery p) as [|items|m] eqn:Hg; simpl.
  - reflexivity.
  - destruct (optimizeImage_fulfils decode toDataURL
                (match currentImageIndex p with
                 | Int z => if 0 <=? z
                            then match items !! Z.to_nat z with
                                 | Some s => Str s
                                 | None => Undefined
                                 end
                            else Undefined
                 | NotANumber => Undefined
                 end) 800 0.9) as [v Hv].
    destruct (currentImageIndex p) as [z|]; simpl in *.
    + destruct (0 <=? z); [destruct (items !! Z.to_nat z)|]; simpl;
        rewrite Hv; reflexivity.
    + rewrite Hv. reflexivity.
  - destruct (optimizeImage_fulfils decode toDataURL Undefined 800 0.9)
      as [v Hv].
    rewrite Hv. reflexivity.
Qed.

Lemma next_index (p : Page) (len : index_number) :
  collection_length (currentGallery p) = Some len ->
  currentImageIndex (snd (next p))
  = num_rem (num_add (currentImageIndex p) (Int 1)) len.
Proof.
  intros Hlen. unfold nextImage. rewrite Hlen.
  destruct (display_frame (set_index
    (num_rem (num_add (currentImageIndex p) (Int 1)) len) p)) as (_ & Hi & _).
  exact Hi.
Qed.

Lemma prev_index (p : Page) (len : index_number) :
  collection_length (currentGallery p) = Some len ->
  currentImageIndex (snd (prev p))
  = num_rem (num_add (num_sub (currentImageIndex p) (Int 1)) len) len.
Proof.
  intros Hlen. unfold prevImage. rewrite Hlen.
  destruct (display_frame (set_index
    (num_rem (num_add (num_sub (currentImageIndex p) (Int 1)) len) len) p))
    as (_ & Hi & _).
  exact Hi.
Qed.

(** C4: on a collection of [n > 0] images and an index [i] in [[0, n)],
    [nextImage] moves to [(i + 1) mod n] and [prevImage] to
    [(i - 1 + n) mod n]; both stay in [[0, n)] and name an image of the
    collection; the last index is followed by 0, and 0 is preceded by
    [n - 1]. *)
Theorem gallery_index_wraps (p : Page) (items : list string) (i : Z) :
  currentGallery p = Images items ->
  items <> [] ->
  currentImageIndex p = Int i ->
  0 <= i < Z.of_nat (length items) ->
  let n := Z.of_nat (length items) in
  currentImageIndex (snd (next p)) = Int ((i + 1) mod n) /\
  currentImageIndex (snd (prev p)) = Int ((i - 1 + n) mod n) /\
  0 <= (i + 1) mod n < n /\
  0 <= (i - 1 + n) mod n < n /\
  is_Some (items !! Z.to_nat ((i + 1) mod n)) /\
  is_Some (items !! Z.to_nat ((i - 1 + n) mod n)) /\
  (i = n - 1 -> currentImageIndex (snd (next p)) = Int 0) /\
  (i = 0 -> currentImageIndex (snd (prev p)) = Int (n - 1)).
Proof.
  intros Hg Hne Hi Hrange n.
  assert (Hn : 0 < n) by lia.
  assert (Hlen : collection_length (currentGallery p) = Some (Int n))
    by (rewrite Hg; reflexivity).
  assert (Hnext : currentImageIndex (snd (next p)) = Int ((i + 1) mod n)).
  { rewrite (next_index p _ Hlen), Hi. simpl.
    destruct (n =? 0) eqn:E; [lia|].
    rewrite Z.rem_mod_nonneg by lia. reflexivity. }
  assert (Hprev : currentImageIndex (snd (prev p)) = Int ((i - 1 + n) mod n)).
  { rewrite (prev_index p _ Hlen), Hi. simpl.
    destruct (n =? 0) eqn:E; [lia|].
    rewrite Z.rem_mod_nonneg by lia. reflexivity. }
  assert (Hb1 : 0 <= (i + 1) mod n < n) by (apply Z.mod_pos_bound; lia).
  assert (Hb2 : 0 <= (i - 1 + n) mod n < n) by (apply Z.mod_pos_bound; lia).
  repeat split; try assumption; try lia.
  - apply lookup_lt_is_Some. lia.
  - apply lookup_lt_is_Some. lia.
  - intros ->. rewrite Hnext. f_equal.
    replace (n - 1 + 1) with n by lia. apply Z.mod_same. lia.
  - intros ->. rewrite Hprev. f_equal.
    replace (0 - 1 + n) with (n - 1) by lia. apply Z.mod_small. lia.
Qed.

(** C8: on the empty collection, the one the script starts with,
    [nextImage] and [prevImage] take the remainder by zero and leave NaN in
    the index, and no index names an image. *)
Theorem gallery_empty_index_nan (p : Page) :
  currentGallery p = Images [] ->
  currentImageIndex (snd (next p)) = NotANumber /\
  currentImageIndex (snd (prev p)) = NotANumber /\
  (forall i, collection_at (currentGallery p) i = Some Undefined).
Proof.
  intros Hg.
  assert (Hlen : collection_length (currentGallery p) = Some (Int 0))
    by (rewrite Hg; reflexivity).
  split; [|split].
  - rewrite (next_index p _ Hlen).
    destruct (currentImageIndex p); reflexivity.
  - rewrite (prev_index p _ Hlen).
    destruct (currentImageIndex p); reflexivity.
  - intros i. rewrite Hg. destruct i as [z|]; simpl; [|reflexivity].
    destruct (0 <=? z); reflexivity.
Qed.

(** C6: the key-press handler closes the gallery on Escape, shows the
    previous image on ArrowLeft and the next one on ArrowRight, and leaves
    the page as it is on any other key. *)
Theorem handleKeyPress_dispatch (key : string) (p : Page) :
  keypress "Escape" p = closeGallery p /\
  keypress "ArrowLeft" p = snd (prev p) /\
  keypress "ArrowRight" p = snd (next p) /\
  (key <> "Escape" -> key <> "ArrowLeft" -> key <> "ArrowRight" ->
   keypress key p = p).
Proof.
  repeat split.
  intros H1 H2 H3. unfold handleKeyPress.
  apply String.eqb_neq in H1, H2, H3. rewrite H1, H2, H3. reflexivity.
Qed.

(** C7: closing hides the modal, gives the page its scroll bar back and
    removes the key-press handler; the collection, the index and the shown
    image stay, and so do the other listeners. *)
Theorem closeGallery_effects (p : Page) :
  let p' := closeGallery p in
  modal_display p' = "none" /\
  body_overflow p' = "auto" /\
  ("handleKeyPress" ∉ keydown_listeners p') /\
  (forall h, h <> "handleKeyPress" ->
             (h ∈ keydown_listeners p' <-> h ∈ keydown_listeners p)) /\
  currentGallery p' = currentGallery p /\
  currentImageIndex p' = currentImageIndex p /\
  gallery_images p' = gallery_images p.
Proof.
  simpl. split; [reflexivity|]. split; [reflexivity|].
  split; [|split; [|tauto]].
  - rewrite elem_of_difference, elem_of_singleton. tauto.
  - intros h Hh. rewrite elem_of_difference, elem_of_singleton. tauto.
Qed.

(** C9, amended: for a key that names neither a configured gallery nor a
    member of [Object.prototype], [openGallery] stores [undefined] as the
    collection and rejects with the TypeError of the display routine; the
    modal, the page scroll and the key-press listeners are as before. *)
Theorem openGallery_unknown_key (houseType : string) (p : Page) :
  galleryData !! houseType = None ->
  Object_prototype !! houseType = None ->
  open houseType p = (Threw TypeError, set_gallery NoCollection (Int 0) p) /\
  let p' := snd (open houseType p) in
  currentGallery p' = NoCollection /\
  modal_display p' = modal_display p /\
  body_overflow p' = body_overflow p /\
  keydown_listeners p' = keydown_listeners p /\
  gallery_images p' = gallery_images p.
Proof.
  intros Hown Hproto.
  assert (H : open houseType p
              = (Threw TypeError, set_gallery NoCollection (Int 0) p)).
  { unfold openGallery, galleryData_get. rewrite Hown, Hproto. reflexivity. }
  split; [exact H|]. rewrite H. simpl. tauto.
Qed.

End GalleryProperties.

Lemma gallery_index_wraps_abc :
  currentImageIndex
    (snd (nextImage decode_fails sample_toDataURL sample_Number_toString
            (abc_page 2))) = Int 0 /\
  currentImageIndex
    (snd (prevImage decode_fails sample_toDataURL sample_Number_toString
            (abc_page 0))) = Int 2.
Proof.
  split.
  - apply (gallery_index_wraps decode_fails sample_toDataURL
             sample_Number_toString (abc_page 2) ["a.jpg"; "b.jpg"; "c.jpg"] 2);
      [reflexivity | discriminate | reflexivity | simpl; lia | reflexivity].
  - apply (gallery_index_wraps decode_fails sample_toDataURL
             sample_Number_toString (abc_page 0) ["a.jpg"; "b.jpg"; "c.jpg"] 0);
      [reflexivity | discriminate | reflexivity | simpl; lia | reflexivity].
Defined.

Lemma gallery_empty_index_nan_initially :
  currentGallery closed_page = Images [] /\
  currentImageIndex
    (snd (nextImage decode_1600x900 sample_toDataURL sample_Number_toString
            closed_page)) = NotANumber /\
  currentImageIndex
    (snd (prevImage decode_1600x900 sample_toDataURL sample_Number_toString
            closed_page)) = NotANumber.
Proof.
  split; [reflexivity|].
  destruct (gallery_empty_index_nan decode_1600x900 sample_toDataURL
              sample_Number_toString closed_page eq_refl) as (Hn & Hp & _).
  split; [exact Hn | exact Hp].
Defined.

Lemma handleKeyPress_dispatch_Enter :
  handleKeyPress decode_fails sample_toDataURL sample_Number_toString "Enter"
    (abc_page 1) = abc_page 1.
Proof.
  apply (handleKeyPress_dispatch decode_fails sample_toDataURL
           sample_Number_toString "Enter" (abc_page 1));
    discriminate.
Defined.

Lemma closeGallery_effects_other_listener :
  "trackKeys" ∈ keydown_listeners
     (closeGallery (set_modal "block" "hidden"
                      {[ "handleKeyPress"; "trackKeys" ]} (abc_page 1))).
Proof.
  apply (closeGallery_effects
           (set_modal "block" "hidden" {[ "handleKeyPress"; "trackKeys" ]}
              (abc_page 1)));
    [discriminate | vm_compute; set_solver].
Defined.

(** C9, as stated, fails for the key "toString": it is not a configured
    gallery name, yet [galleryData["toString"]] is the function inherited
    from [Object.prototype], indexing it gives [undefined] without an
    exception, and the modal is shown, around an [img] whose source is the
    text "undefined" and whose opacity is 0. *)
Lemma openGallery_inherited_key_shows_modal :
  galleryData !! "toString" = None /\
  let r := openGallery decode_fails sample_toDataURL sample_Number_toString
             "toString" closed_page in
  fst r = Done /\
  currentGallery (snd r) = Inherited (Method 0) /\
  modal_display (snd r) = "block" /\
  body_overflow (snd r) = "hidden" /\
  gallery_images (snd r) = img_html "undefined" /\
  gallery_photo (snd r) = Some fading_photo.
Proof. vm_compute. repeat split; reflexivity. Qed.

Lemma openGallery_unknown_key_tsubaki :
  galleryData !! "tsubaki" = None /\
  Object_prototype !! "tsubaki" = None /\
  openGallery decode_fails sample_toDataURL sample_Number_toString
    "tsubaki" closed_page
  = (Threw TypeError, set_gallery NoCollection (Int 0) closed_page).
Proof.
  split; [reflexivity|]. split; [reflexivity|].
  apply (openGallery_unknown_key decode_fails sample_toDataURL
           sample_Number_toString "tsubaki" closed_page); reflexivity.
Defined.

(** ** Accordion *)

Lemma toggleAccordion_valid (items : list AccordionItem) (i : nat) :
  (i < length items)%nat ->
  exists item,
    items !! i = Some item /\
    toggleAccordion i items
    = Some (if item_active item then close_item <$> items
            else alter open_item i (close_item <$> items)).
Proof.
  intros Hi. destruct (lookup_lt_is_Some_2 items i Hi) as [item Hitem].
  exists item. split; [exact Hitem|].
  unfold toggleAccordion. rewrite Hitem.
  destruct (item_active item); reflexivity.
Qed.

Lemma closed_collapsed (items : list AccordionItem) :
  collapsed (close_item <$> items).
Proof.
  unfold collapsed. induction items as [|item items IH]; constructor;
    [reflexivity | exact IH].
Qed.

Lemma closed_idempotent (items : list AccordionItem) :
  close_item <$> (close_item <$> items) = close_item <$> items.
Proof.
  induction items as [|item items IH]; [reflexivity|].
  csimpl. rewrite IH. reflexivity.
Qed.

Lemma closed_not_expanded (items : list AccordionItem) (k : nat) :
  ~ expanded (close_item <$> items) k.
Proof.
  intros (item & Hk & Hactive). rewrite list_lookup_fmap in Hk.
  destruct (items !! k); simpl in Hk; [|discriminate].
  injection Hk as <-. discriminate Hactive.
Qed.

Lemma opened_expanded (items : list AccordionItem) (i k : nat) :
  (i < length items)%nat ->
  expanded (alter open_item i (close_item <$> items)) k <-> k = i.
Proof.
  intros Hi. split.
  - intros (item & Hk & Hactive).
    destruct (decide (i = k)) as [->|Hne]; [reflexivity|].
    rewrite list_lookup_alter_ne in Hk by exact Hne.
    destruct (closed_not_expanded items k). exists item. auto.
  - intros ->. destruct (lookup_lt_is_Some_2 items i Hi) as [item Hitem].
    exists (open_item (close_item item)).
    rewrite list_lookup_alter_eq, list_lookup_fmap, Hitem. auto.
Qed.

(** C5, as stated, fails on an accordion whose only item is expanded:
    the first [toggleAccordion(0)] closes it and the second one opens it
    again. *)
Lemma toggleAccordion_twice_not_collapsed :
  ~ (forall (items s1 s2 : list AccordionItem) (i : nat),
        (i < length items)%nat ->
        toggleAccordion i items = Some s1 ->
        toggleAccordion i s1 = Some s2 ->
        collapsed s2).
Proof.
  intros H.
  specialize (H [ {| item_active := true; content_active := true;
                     icon_text := "×" |} ]
                [ {| item_active := false; content_active := false;
                     icon_text := "+" |} ]
                [ {| item_active := true; content_active := true;
                     icon_text := "×" |} ]
                0%nat ltac:(simpl; lia) eq_refl eq_refl).
  inversion H as [|item rest Hitem Hrest]. discriminate Hitem.
Qed.

(** C5, amended: on valid indices [i] and [j], [toggleAccordion] succeeds
    and leaves at most one item expanded; two calls on [i] collapse every
    item if item [i] was not expanded at the start, and leave exactly item
    [i] expanded if it was; a call on [i] followed by a call on another
    index [j] leaves exactly item [j] expanded. *)
Theorem toggleAccordion_laws (items : list AccordionItem) (i j : nat) :
  (i < length items)%nat ->
  (j < length items)%nat ->
  exists s1 s2 s3,
    toggleAccordion i items = Some s1 /\
    toggleAccordion i s1 = Some s2 /\
    toggleAccordion j s1 = Some s3 /\
    (forall k1 k2, expanded s1 k1 -> expanded s1 k2 -> k1 = k2) /\
    (~ expanded items i -> collapsed s2) /\
    (expanded items i -> forall k, expanded s2 k <-> k = i) /\
    (j <> i -> forall k, expanded s3 k <-> k = j).
Proof.
  intros Hi Hj.
  destruct (toggleAccordion_valid items i Hi) as (item & Hitem & H1).
  set (closed := close_item <$> items) in *.
  assert (Hlen : length closed = length items) by apply length_fmap.
  assert (Hcc : close_item <$> closed = closed) by apply closed_idempotent.
  destruct (item_active item) eqn:Hactive.
  - (* item i was expanded: the first call closes everything *)
    destruct (toggleAccordion_valid closed i ltac:(lia)) as (ci & Hci & H2).
    destruct (toggleAccordion_valid closed j ltac:(lia)) as (cj & Hcj & H3).
    assert (Hia : item_active ci = false).
    { unfold closed in Hci. rewrite list_lookup_fmap, Hitem in Hci.
      injection Hci as <-. reflexivity. }
    assert (Hja : item_active cj = false).
    { unfold closed in Hcj. rewrite list_lookup_fmap in Hcj.
      destruct (items !! j); [|discriminate]. injection Hcj as <-. reflexivity. }
    rewrite Hia, Hcc in H2. rewrite Hja, Hcc in H3.
    exists closed, (alter open_item i closed), (alter open_item j closed).
    repeat split; try assumption.
    + intros k1 k2 Hk1. destruct (closed_not_expanded items k1 Hk1).
    + intros Hn. destruct Hn. exists item. auto.
    + apply (opened_expanded items i k Hi).
    + apply (opened_expanded items i k Hi).
    + apply (opened_expanded items j k Hj).
    + apply (opened_expanded items j k Hj).
  - (* item i was not expanded: the first call opens it alone *)
    set (s1 := alter open_item i closed) in *.
    assert (Hlen1 : length s1 = length items)
      by (unfold s1; rewrite length_alter; exact Hlen).
    assert (Hc1 : close_item <$> s1 = closed).
    { apply list_eq. intros k. unfold s1. rewrite list_lookup_fmap.
      destruct (decide (i = k)) as [->|Hne].
      - rewrite list_lookup_alter_eq. unfold closed.
        rewrite list_lookup_fmap. destruct (items !! k); reflexivity.
      - rewrite list_lookup_alter_ne by exact Hne. unfold closed.
        rewrite list_lookup_fmap. destruct (items !! k); reflexivity. }
    destruct (toggleAccordion_valid s1 i ltac:(lia)) as (ci & Hci & H2).
    destruct (toggleAccordion_valid s1 j ltac:(lia)) as (cj & Hcj & H3).
    assert (Hia : item_active ci = true).
    { unfold s1, closed in Hci.
      rewrite list_lookup_alter_eq, list_lookup_fmap, Hitem in Hci.
      injection Hci as <-. reflexivity. }
    rewrite Hia, Hc1 in H2. rewrite Hc1 in H3.
    exists s1, closed,
      (if item_active cj then closed else alter open_item j closed).
    repeat split; try assumption.
    + intros k1 k2 Hk1 Hk2.
      apply (opened_expanded items i k1 Hi) in Hk1.
      apply (opened_expanded items i k2 Hi) in Hk2. congruence.
    + intros _. apply closed_collapsed.
    + intros Hk. destruct (closed_not_expanded items k Hk).
    + intros ->. destruct H as (it & Hit & Hita).
      rewrite Hitem in Hit. injection Hit as <-. congruence.
    + assert (Hja : item_active cj = false).
      { unfold s1 in Hcj. rewrite list_lookup_alter_ne in Hcj by auto.
        unfold closed in Hcj. rewrite list_lookup_fmap in Hcj.
        destruct (items !! j); [|discriminate].
        injection Hcj as <-. reflexivity. }
      rewrite Hja. apply (opened_expanded items j k Hj).
    + assert (Hja : item_active cj = false).
      { unfold s1 in Hcj. rewrite list_lookup_alter_ne in Hcj by auto.
        unfold closed in Hcj. rewrite list_lookup_fmap in Hcj.
        destruct (items !! j); [|discriminate].
        injection Hcj as <-. reflexivity. }
      rewrite Hja. apply (opened_expanded items j k Hj).
Qed.

Lemma toggleAccordion_laws_three_items :
  exists s1 s2 s3,
    toggleAccordion 0 three_items = Some s1 /\
    toggleAccordion 0 s1 = Some s2 /\
    toggleAccordion 2 s1 = Some s3 /\
    (forall k1 k2, expanded s1 k1 -> expanded s1 k2 -> k1 = k2) /\
    (~ expanded three_items 0 -> collapsed s2) /\
    (expanded three_items 0 -> forall k, expanded s2 k <-> k = 0%nat) /\
    (2%nat <> 0%nat -> forall k, expanded s3 k <-> k = 2%nat).
Proof.
  apply (toggleAccordion_laws three_items 0 2); simpl; lia.
Defined.

(** ** Lazy loader *)

Section LazyLoaderProperties.

Variable Number_toString : float -> string.

Local Abbreviation maxWidth_passed imgElement :=
  (snd (fst (optimizer_call Number_toString imgElement))).
Local Abbreviation quality_passed imgElement :=
  (snd (optimizer_call Number_toString imgElement)).

(** The operand that [||] selects is the attribute when it is a non-empty
    string, and the default otherwise. *)
Lemma or_default (imgElement : ImgElement) (name : string) (default : value) :
  Js.or (dataset_get imgElement name) default
  = match dataset imgElement !! name with
    | Some "" | None => default
    | Some s => Str s
    end.
Proof.
  unfold Js.or, dataset_get.
  destruct (dataset imgElement !! name) as [[|c s]|]; reflexivity.
Qed.

(** The lazy loader always finishes: the image is shown sharp and opaque,
    its source is what the optimizer resolved with, and the deferred-source
    marker is gone. *)
Lemma loadOptimizedImage_completes (decode : value -> image_event)
  (toDataURL : value -> Size -> float -> string) (imgElement : ImgElement) :
  let r := loadOptimizedImage decode toDataURL Number_toString imgElement in
  fst r = Done /\
  dataset (snd r) !! "src" = None /\
  style_opacity (snd r) = "1" /\
  style_filter (snd r) = "none" /\
  (decode (dataset_get imgElement "src") = error ->
   src (snd r) = ToString Number_toString (dataset_get imgElement "src")).
Proof.
  unfold loadOptimizedImage.
  destruct (optimizer_call Number_toString imgElement)
    as [[originalSrc maxWidth] quality] eqn:Hcall.
  assert (Hsrc : originalSrc = dataset_get imgElement "src")
    by (unfold optimizer_call in Hcall; congruence).
  destruct (optimizeImage_fulfils decode toDataURL originalSrc maxWidth quality)
    as [v Hv].
  rewrite Hv. simpl. rewrite lookup_delete_eq.
  repeat split. intros Herr. subst originalSrc.
  unfold optimizeImage in Hv. rewrite Herr in Hv. simpl in Hv.
  unfold onerror, optimizeImage_returned in Hv. simpl in Hv. congruence.
Qed.

(** C10, amended: a max-width or quality override that is absent or the
    empty string gives way to the default 800 or 0.8; any other override,
    "0" included, is truthy and is what [parseInt] or [parseFloat] is applied
    to, so the override "0" passes a zero to the optimizer. *)
Theorem loadOptimizedImage_overrides (imgElement : ImgElement) :
  Number_toString 800 = "800" ->
  Number_toString 0.8 = "0.8" ->
  (dataset imgElement !! "maxWidth" = None \/
   dataset imgElement !! "maxWidth" = Some "" ->
   maxWidth_passed imgElement = 800%float) /\
  (forall s, dataset imgElement !! "maxWidth" = Some s -> s <> "" ->
             maxWidth_passed imgElement = parseInt_string s) /\
  (dataset imgElement !! "maxWidth" = Some "0" ->
   maxWidth_passed imgElement = 0%float) /\
  (dataset imgElement !! "quality" = None \/
   dataset imgElement !! "quality" = Some "" ->
   quality_passed imgElement = 0.8%float) /\
  (forall s, dataset imgElement !! "quality" = Some s -> s <> "" ->
             quality_passed imgElement = parseFloat_string s) /\
  (dataset imgElement !! "quality" = Some "0" ->
   quality_passed imgElement = 0%float).
Proof.
  intros H800 H08. unfold optimizer_call. cbn [fst snd].
  unfold parseInt, parseFloat. rewrite !or_default.
  repeat split.
  - intros [-> | ->]; simpl; rewrite H800; reflexivity.
  - intros s -> Hs. destruct s; [congruence | reflexivity].
  - intros ->. reflexivity.
  - intros [-> | ->]; simpl; rewrite H08; reflexivity.
  - intros s -> Hs. destruct s; [congruence | reflexivity].
  - intros ->. reflexivity.
Qed.

End LazyLoaderProperties.

(** C10, as stated, fails for the overrides "0": the string "0" is truthy,
    so the optimizer is called with the maximal width 0 and the quality 0,
    not with 800 and 0.8. *)
Lemma loadOptimizedImage_zero_override_kept :
  dataset zero_override_img !! "maxWidth" = Some "0" /\
  dataset zero_override_img !! "quality" = Some "0" /\
  optimizer_call sample_Number_toString zero_override_img
  = (Str "imgs/hero/hero-bg.jpg", 0%float, 0%float) /\
  snd (fst (optimizer_call sample_Number_toString zero_override_img))
  <> 800%float /\
  snd (optimizer_call sample_Number_toString zero_override_img) <> 0.8%float.
Proof.
  vm_compute. repeat split; try reflexivity; intros H; discriminate H.
Qed.

Lemma loadOptimizedImage_overrides_samples :
  snd (fst (optimizer_call sample_Number_toString zero_override_img))
  = 0%float /\
  snd (optimizer_call sample_Number_toString zero_override_img) = 0%float /\
  snd (fst (optimizer_call sample_Number_toString empty_override_img))
  = 800%float /\
  snd (optimizer_call sample_Number_toString empty_override_img) = 0.8%float.
Proof.
  destruct (loadOptimizedImage_overrides sample_Number_toString
              zero_override_img eq_refl eq_refl) as (_ & _ & Hw & _ & _ & Hq).
  destruct (loadOptimizedImage_overrides sample_Number_toString
              empty_override_img eq_refl eq_refl) as (Hw' & _ & _ & Hq' & _).
  split; [apply Hw; reflexivity|].
  split; [apply Hq; reflexivity|].
  split; [apply Hw'; right; reflexivity|].
  apply Hq'; left; reflexivity.
Defined.

(** * Further properties of the script *)

(** ** Size calculator: order and NaN in binary64 *)

Lemma SFcompare_refl (x : spec_float) :
  x <> S754_nan -> SFcompare x x = Some Eq.
Proof.
  destruct x as [s|s| |s m e]; simpl; intros H; try congruence.
  - destruct s; reflexivity.
  - rewrite Z.compare_refl.
    change (Pos.compare_cont Eq m m) with (m ?= m)%positive.
    rewrite Pos.compare_refl. destruct s; reflexivity.
Qed.

Lemma SFcompare_swap (x y : spec_float) :
  SFcompare y x = option_map CompOpp (SFcompare x y).
Proof.
  destruct x as [sx|sx| |sx mx ex], y as [sy|sy| |sy my ey]; simpl;
    try reflexivity; try (destruct sx); try (destruct sy); try reflexivity;
    rewrite (Z.compare_antisym ex ey);
    change (Pos.compare_cont Eq mx my) with (mx ?= my)%positive;
    change (Pos.compare_cont Eq my mx) with (my ?= mx)%positive;
    rewrite (Pos.compare_antisym mx my);
    destruct (ex ?= ey)%Z; simpl; try reflexivity;
    destruct (mx ?= my)%positive; reflexivity.
Qed.

Lemma is_nan_false_compare (x : float) :
  is_nan x = false -> SFcompare (Prim2SF x) (Prim2SF x) = Some Eq.
Proof.
  unfold is_nan. rewrite FloatAxioms.eqb_spec. unfold SFeqb.
  destruct (SFcompare (Prim2SF x) (Prim2SF x)) as [[]|]; simpl;
    intros H; try discriminate H; reflexivity.
Qed.

Lemma is_nan_false_Prim2SF (x : float) :
  is_nan x = false -> Prim2SF x <> S754_nan.
Proof.
  intros H Hn. apply is_nan_false_compare in H. rewrite Hn in H.
  discriminate H.
Qed.

Lemma is_nan_true_eq (x : float) : is_nan x = true -> x = nan.
Proof.
  unfold is_nan. rewrite FloatAxioms.eqb_spec. unfold SFeqb. intros H.
  rewrite <- (SF2Prim_Prim2SF x).
  destruct (Prim2SF x) as [s|s| |s m e] eqn:E; try reflexivity;
    rewrite SFcompare_refl in H by discriminate; discriminate H.
Qed.

Lemma float_le_refl (x : float) : is_nan x = false -> (x <=? x)%float = true.
Proof.
  intros H. rewrite leb_spec. unfold SFleb.
  rewrite (is_nan_false_compare x H). reflexivity.
Qed.

Lemma float_le_total (a b : float) :
  is_nan a = false -> is_nan b = false ->
  (a <=? b)%float = false -> (b <=? a)%float = true.
Proof.
  intros Ha Hb. rewrite !leb_spec. unfold SFleb.
  rewrite (SFcompare_swap (Prim2SF a) (Prim2SF b)).
  apply is_nan_false_Prim2SF in Ha, Hb.
  destruct (Prim2SF a) as [sa|sa| |sa ma ea], (Prim2SF b) as [sb|sb| |sb mb eb];
    try congruence;
    match goal with
    | |- context [SFcompare ?x ?y] => destruct (SFcompare x y) as [[]|] eqn:E
    end; simpl; try reflexivity; try discriminate;
    try (destruct sa; discriminate E); try (destruct sb; discriminate E);
    try (destruct sa, sb; discriminate E).
Qed.

Lemma nan_div (x : float) : (nan / x)%float = nan.
Proof.
  rewrite <- (SF2Prim_Prim2SF (nan / x)%float), div_spec.
  change (Prim2SF nan) with S754_nan. reflexivity.
Qed.

Lemma float_le_nan (x : float) : (x <=? nan)%float = false.
Proof.
  rewrite leb_spec. change (Prim2SF nan) with S754_nan.
  unfold SFleb. destruct (Prim2SF x); reflexivity.
Qed.

(** X1: resizing is idempotent: the size computed for an image is kept when
    an image of that size is resized with the same maximal width. *)
Theorem calculateOptimalSize_idempotent (originalWidth originalHeight maxWidth : float) :
  let size := calculateOptimalSize originalWidth originalHeight maxWidth in
  calculateOptimalSize (width size) (height size) maxWidth = size.
Proof.
  unfold calculateOptimalSize.
  destruct (originalWidth <=? maxWidth)%float eqn:E; cbn [width height].
  - rewrite E. reflexivity.
  - destruct (is_nan maxWidth) eqn:N.
    + apply is_nan_true_eq in N. subst maxWidth.
      rewrite float_le_nan, !nan_div. reflexivity.
    + rewrite (float_le_refl maxWidth N). reflexivity.
Qed.

(** X2: when neither width is NaN, the computed width exceeds neither the
    maximal width nor the width of the image. *)
Theorem calculateOptimalSize_width_bounded (originalWidth originalHeight maxWidth : float) :
  is_nan originalWidth = false ->
  is_nan maxWidth = false ->
  let size := calculateOptimalSize originalWidth originalHeight maxWidth in
  (width size <=? maxWidth)%float = true /\
  (width size <=? originalWidth)%float = true.
Proof.
  intros Ho Hm. unfold calculateOptimalSize.
  destruct (originalWidth <=? maxWidth)%float eqn:E; cbn [width].
  - split; [exact E | apply float_le_refl; exact Ho].
  - split; [apply float_le_refl; exact Hm|].
    apply float_le_total; assumption.
Qed.

Lemma calculateOptimalSize_width_bounded_1920 :
  (width (calculateOptimalSize 1920 1080 800) <=? 800)%float = true /\
  (width (calculateOptimalSize 1920 1080 800) <=? 1920)%float = true.
Proof.
  apply (calculateOptimalSize_width_bounded 1920 1080 800); reflexivity.
Defined.

(** X3: a maximal width that is NaN, as [parseInt] gives for an override
    that does not start with a number, makes both dimensions NaN. *)
Theorem calculateOptimalSize_nan_maxWidth (originalWidth originalHeight : float) :
  calculateOptimalSize originalWidth originalHeight nan
  = {| width := nan; height := nan |}.
Proof.
  unfold calculateOptimalSize. rewrite float_le_nan, nan_div. reflexivity.
Qed.

(** X4: an image of height 0 that is wider than a positive maximal width
    gets the maximal width and the height 0: the division by zero gives an
    infinite ratio, not a NaN height. *)
Theorem calculateOptimalSize_zero_height (originalWidth maxWidth : float) :
  (0 <? maxWidth)%float = true ->
  (maxWidth <? originalWidth)%float = true ->
  calculateOptimalSize originalWidth 0 maxWidth
  = {| width := maxWidth; height := 0 |}.
Proof.
  intros Hpos Hlt. unfold calculateOptimalSize.
  rewrite (float_lt_not_le _ _ Hlt). f_equal.
  assert (Hq : (maxWidth / (originalWidth / 0))%float = 0%float).
  { rewrite <- (SF2Prim_Prim2SF (maxWidth / (originalWidth / 0))%float).
    rewrite !div_spec. rewrite ltb_spec in Hpos, Hlt.
    change (Prim2SF 0) with (S754_zero false) in *.
    unfold SFltb in Hpos, Hlt.
    destruct (Prim2SF maxWidth) as [sm|sm| |sm mm em],
             (Prim2SF originalWidth) as [so|so| |so mo eo];
      simpl in Hpos, Hlt; try discriminate;
      try (destruct sm; discriminate); try (destruct so; discriminate);
      try (destruct sm, so; discriminate);
      destruct sm, so; try discriminate; reflexivity. }
  rewrite Hq. reflexivity.
Qed.

Lemma calculateOptimalSize_zero_height_1600 :
  calculateOptimalSize 1600 0 800 = {| width := 800; height := 0 |}.
Proof.
  apply (calculateOptimalSize_zero_height 1600 800); reflexivity.
Defined.

(** ** Image optimizer: what the promise holds *)

Section OptimizerResults.

Variable decode : value -> image_event.
Variable toDataURL : value -> Size -> float -> string.

Lemma deliver_settled (ev : image_event) (src v : value)
  (maxWidth quality : float) :
  deliver toDataURL ev src maxWidth quality (Fulfilled v) = Fulfilled v.
Proof. destruct ev; reflexivity. Qed.

Lemma deliver_all_settled (evs : list image_event) (src v : value)
  (maxWidth quality : float) :
  deliver_all toDataURL evs src maxWidth quality (Fulfilled v) = Fulfilled v.
Proof.
  induction evs as [|ev evs IH]; [reflexivity|].
  simpl. rewrite deliver_settled. exact IH.
Qed.

(** X5: the first event settles the promise for good: whatever events
    follow, the promise holds what the first one put there. *)
Theorem optimizeImage_first_event_wins (ev : image_event)
  (evs : list image_event) (src : value) (maxWidth quality : float) :
  deliver_all toDataURL (ev :: evs) src maxWidth quality
    (optimizeImage_returned src maxWidth quality)
  = deliver toDataURL ev src maxWidth quality
      (optimizeImage_returned src maxWidth quality).
Proof.
  simpl. destruct (deliver_fulfils toDataURL ev src maxWidth quality) as [v Hv].
  unfold optimizeImage_returned. rewrite Hv. apply deliver_all_settled.
Qed.

(** X6: for an image that decodes, the promise holds the encoding of a
    canvas that, when neither width is NaN, is not wider than the maximal
    width and not wider than the image. *)
Theorem optimizeImage_loaded_result (src : value)
  (img_width img_height maxWidth quality : float) :
  decode src = load img_width img_height ->
  is_nan img_width = false ->
  is_nan maxWidth = false ->
  exists size,
    optimizeImage decode toDataURL src maxWidth quality
    = Fulfilled (Str (toDataURL src size quality)) /\
    size = calculateOptimalSize img_width img_height maxWidth /\
    (width size <=? maxWidth)%float = true /\
    (width size <=? img_width)%float = true.
Proof.
  intros Hd Hw Hm.
  exists (calculateOptimalSize img_width img_height maxWidth).
  split; [|split; [reflexivity|]].
  - unfold optimizeImage. rewrite Hd. reflexivity.
  - destruct (is_nan maxWidth) eqn:N; [discriminate|].
    unfold calculateOptimalSize.
    destruct (img_width <=? maxWidth)%float eqn:E; cbn [width].
    + split; [exact E | apply float_le_refl; exact Hw].
    + split; [apply float_le_refl; exact N|].
      apply float_le_total; assumption.
Qed.

End OptimizerResults.

Lemma optimizeImage_loaded_result_1600x900 :
  exists size,
    optimizeImage decode_1600x900 sample_toDataURL (Str "a.jpg") 800 0.8
    = Fulfilled (Str (sample_toDataURL (Str "a.jpg") size 0.8)) /\
    size = calculateOptimalSize 1600 900 800 /\
    (width size <=? 800)%float = true /\
    (width size <=? 1600)%float = true.
Proof.
  apply (optimizeImage_loaded_result decode_1600x900 sample_toDataURL
           (Str "a.jpg") 1600 900 800 0.8); reflexivity.
Defined.

(** ** Lazy loader and responsive widths *)

Section LazyLoading.

Variable decode : value -> image_event.
Variable toDataURL : value -> Size -> float -> string.
Variable Number_toString : float -> string.

Local Abbreviation load_image :=
  (loadOptimizedImage decode toDataURL Number_toString).
Local Abbreviation responsive := (handleResponsiveImages Number_toString).
Local Abbreviation callback := (observer_callback Number_toString).
Local Abbreviation entry_step := (on_entry Number_toString).
Local Abbreviation finish := (finish_load decode toDataURL Number_toString).
Local Abbreviation finish_all :=
  (finish_loads decode toDataURL Number_toString).
Local Abbreviation settled := (settle decode toDataURL Number_toString).

(** What a finished load leaves behind. *)
Lemma load_image_result (imgElement : ImgElement) :
  exists v,
    optimizeImage decode toDataURL (dataset_get imgElement "src")
      (snd (fst (optimizer_call Number_toString imgElement)))
      (snd (optimizer_call Number_toString imgElement)) = Fulfilled v /\
    load_image imgElement
    = (Done, show_loaded Number_toString v
               "opacity 0.3s ease, filter 0.3s ease"
               (show_loading imgElement)).
Proof.
  unfold loadOptimizedImage, optimizer_call. cbn [fst snd].
  destruct (optimizeImage_fulfils decode toDataURL
              (dataset_get imgElement "src")
              (parseInt Number_toString
                 (Js.or (dataset_get imgElement "maxWidth") (Num 800)))
              (parseFloat Number_toString
                 (Js.or (dataset_get imgElement "quality") (Num 0.8))))
    as [v Hv].
  exists v. rewrite Hv. split; reflexivity.
Qed.

Lemma load_image_unmarked (imgElement : ImgElement) :
  has_data_src (snd (load_image imgElement)) = false.
Proof.
  destruct (load_image_result imgElement) as (v & _ & ->).
  unfold has_data_src. simpl. rewrite lookup_delete_eq. reflexivity.
Qed.

(** X7: a load always finishes: the deferred-source marker is removed and
    the other data attributes are kept, the image is opaque and sharp with
    the transition set, and its source is the data URL of the resized image
    if the source decodes and the deferred source itself if it does not. *)
Theorem loadOptimizedImage_outcome (imgElement : ImgElement) (s : string) :
  dataset imgElement !! "src" = Some s ->
  let r := load_image imgElement in
  fst r = Done /\
  dataset (snd r) = delete "src" (dataset imgElement) /\
  style_opacity (snd r) = "1" /\
  style_filter (snd r) = "none" /\
  style_transition (snd r) = "opacity 0.3s ease, filter 0.3s ease" /\
  (decode (Str s) = error -> src (snd r) = s) /\
  (forall w h, decode (Str s) = load w h ->
     src (snd r)
     = toDataURL (Str s)
         (calculateOptimalSize w h
            (snd (fst (optimizer_call Number_toString imgElement))))
         (snd (optimizer_call Number_toString imgElement))).
Proof.
  intros Hs.
  assert (Hsrc : dataset_get imgElement "src" = Str s)
    by (unfold dataset_get; rewrite Hs; reflexivity).
  destruct (load_image_result imgElement) as (v & Hv & ->).
  rewrite Hsrc in Hv. cbn [fst snd]. simpl.
  repeat split.
  - intros Herr. unfold optimizeImage in Hv. rewrite Herr in Hv.
    simpl in Hv. unfold onerror, optimizeImage_returned in Hv. simpl in Hv.
    injection Hv as <-. reflexivity.
  - intros w h Hload. unfold optimizeImage in Hv. rewrite Hload in Hv.
    simpl in Hv. unfold onload, optimizeImage_returned in Hv. simpl in Hv.
    injection Hv as <-. reflexivity.
Qed.

(** X8: a second load of an image finds no deferred source and reads
    [undefined] instead; if that does not decode, the source of the image
    becomes the text "undefined".  The same happens on the first load of an
    image that never had a deferred source. *)
Theorem loadOptimizedImage_twice (imgElement : ImgElement) :
  decode Undefined = error ->
  src (snd (load_image (snd (load_image imgElement)))) = "undefined" /\
  (dataset imgElement !! "src" = None ->
   src (snd (load_image imgElement)) = "undefined").
Proof.
  intros Herr.
  assert (H : forall img, dataset img !! "src" = None ->
                          src (snd (load_image img)) = "undefined").
  { intros img Himg.
    assert (Hsrc : dataset_get img "src" = Undefined)
      by (unfold dataset_get; rewrite Himg; reflexivity).
    destruct (load_image_result img) as (v & Hv & ->).
    rewrite Hsrc in Hv. unfold optimizeImage in Hv. rewrite Herr in Hv.
    simpl in Hv. unfold onerror, optimizeImage_returned in Hv. simpl in Hv.
    injection Hv as <-. reflexivity. }
  split; [|apply H].
  apply H. pose proof (load_image_unmarked imgElement) as Hu.
  unfold has_data_src in Hu.
  destruct (dataset (snd (load_image imgElement)) !! "src");
    [discriminate | reflexivity].
Qed.

Lemma set_dataset_maxWidth_marked (w : float) (img : ImgElement) :
  has_data_src (set_dataset_maxWidth Number_toString w img) = has_data_src img.
Proof.
  unfold has_data_src, set_dataset_maxWidth. simpl.
  rewrite lookup_insert_ne by discriminate. reflexivity.
Qed.

Lemma responsive_lookup (w : float) (images : list ImgElement) (i : nat) :
  responsive w images !! i
  = (fun img => if has_data_src img
                then set_dataset_maxWidth Number_toString
                       (responsive_maxWidth w) img
                else img) <$> images !! i.
Proof. unfold handleResponsiveImages. apply list_lookup_fmap. Qed.

(** X9: after [handleResponsiveImages] an image with a deferred source is
    loaded with the maximal width of the window's breakpoint, 400, 600 or
    800, whatever max-width override its markup had; its quality override
    and its sources are untouched.  An image without a deferred source is
    left as it is. *)
Theorem handleResponsiveImages_sets_breakpoint (screenWidth : float)
  (images : list ImgElement) (i : nat) (img : ImgElement) :
  Number_toString 400 = "400" ->
  Number_toString 600 = "600" ->
  Number_toString 800 = "800" ->
  images !! i = Some img ->
  exists img',
    responsive screenWidth images !! i = Some img' /\
    (has_data_src img = false -> img' = img) /\
    (has_data_src img = true ->
     snd (fst (optimizer_call Number_toString img'))
     = responsive_maxWidth screenWidth /\
     (responsive_maxWidth screenWidth = 400%float \/
      responsive_maxWidth screenWidth = 600%float \/
      responsive_maxWidth screenWidth = 800%float) /\
     snd (optimizer_call Number_toString img')
     = snd (optimizer_call Number_toString img) /\
     dataset img' !! "src" = dataset img !! "src" /\
     src img' = src img).
Proof.
  intros H400 H600 H800 Hi.
  rewrite responsive_lookup, Hi. simpl.
  destruct (has_data_src img) eqn:Hm.
  - eexists. split; [reflexivity|]. split; [discriminate|]. intros _.
    unfold optimizer_call, dataset_get, set_dataset_maxWidth. cbn [fst snd dataset src].
    rewrite lookup_insert_eq.
    rewrite !lookup_insert_ne by discriminate.
    unfold responsive_maxWidth.
    destruct (screenWidth <? 768)%float; [|destruct (screenWidth <? 1200)%float].
    + rewrite H400. repeat split; auto.
    + rewrite H600. repeat split; auto.
    + rewrite H800. repeat split; auto.
  - exists img. split; [reflexivity|]. split; [reflexivity | discriminate].
Qed.

(** X10: the last resize decides: running [handleResponsiveImages] for one
    window width and then for another gives what the second run alone
    gives; in particular a second run for the same width changes nothing. *)
Theorem handleResponsiveImages_last_wins (w1 w2 : float)
  (images : list ImgElement) :
  responsive w2 (responsive w1 images) = responsive w2 images.
Proof.
  unfold handleResponsiveImages. rewrite <- list_fmap_compose.
  apply list_fmap_ext. intros i img _. simpl.
  destruct (has_data_src img) eqn:Hm.
  - rewrite set_dataset_maxWidth_marked, Hm.
    unfold set_dataset_maxWidth. simpl. rewrite insert_insert_eq. reflexivity.
  - rewrite Hm. reflexivity.
Qed.

Lemma data_src_images_spec (images : list ImgElement) (first i : nat) :
  i ∈ data_src_images first images <->
  exists img, (first <= i)%nat /\ images !! (i - first)%nat = Some img /\
              has_data_src img = true.
Proof.
  revert first. induction images as [|img0 rest IH]; intros first; simpl.
  - split; [intros H; exfalso; set_solver|].
    intros (img & _ & H & _). discriminate H.
  - rewrite elem_of_union, IH. split.
    + intros [H | (img & Hle & Hl & Hm)].
      * destruct (has_data_src img0) eqn:Hm0; [|exfalso; set_solver].
        apply elem_of_singleton in H. subst i. exists img0.
        replace (first - first)%nat with 0%nat by lia. auto.
      * exists img. split; [lia|]. split; [|exact Hm].
        replace (i - first)%nat with (S (i - S first)) by lia. exact Hl.
    + intros (img & Hle & Hl & Hm).
      destruct (decide (i = first)) as [->|Hne].
      * left. replace (first - first)%nat with 0%nat in Hl by lia.
        simpl in Hl. injection Hl as ->. rewrite Hm.
        apply elem_of_singleton. reflexivity.
      * right. exists img. split; [lia|]. split; [|exact Hm].
        replace (i - first)%nat with (S (i - S first)) in Hl by lia. exact Hl.
Qed.

Lemma setup_observes_pending (images : list ImgElement) :
  observes_pending (setupLazyLoading images).
Proof.
  intros i. unfold setupLazyLoading. simpl.
  rewrite data_src_images_spec. replace (i - 0)%nat with i by lia.
  split; intros (img & H); exists img; intuition lia.
Qed.

(** The image that a finishing load works on loses its deferred source
    and becomes opaque and sharp; the other images stay. *)
Lemma finish_at (images : list ImgElement) (pending : PendingLoad) :
  exists v,
    optimizeImage decode toDataURL (load_src pending) (load_maxWidth pending)
      (load_quality pending) = Fulfilled v /\
    finish images pending
    = alter (show_loaded Number_toString v
               "opacity 0.3s ease, filter 0.3s ease")
        (load_target pending) images.
Proof.
  destruct (optimizeImage_fulfils decode toDataURL (load_src pending)
              (load_maxWidth pending) (load_quality pending)) as [v Hv].
  exists v. split; [exact Hv|]. unfold finish_load. rewrite Hv. reflexivity.
Qed.

Lemma finish_other (images : list ImgElement) (pending : PendingLoad)
  (i : nat) :
  load_target pending <> i -> finish images pending !! i = images !! i.
Proof.
  intros Hne. destruct (finish_at images pending) as (v & _ & ->).
  apply list_lookup_alter_ne. exact Hne.
Qed.

Lemma finish_all_other (pending : list PendingLoad)
  (images : list ImgElement) (i : nat) :
  (forall pl, pl ∈ pending -> load_target pl <> i) ->
  finish_all pending images !! i = images !! i.
Proof.
  revert images. induction pending as [|pl pending IH]; intros images Hne;
    [reflexivity|].
  simpl. rewrite IH by (intros pl' Hin; apply Hne; right; exact Hin).
  apply finish_other, Hne. left.
Qed.

Lemma finish_all_unmarked (pending : list PendingLoad)
  (images : list ImgElement) (i : nat) (img : ImgElement) :
  images !! i = Some img ->
  has_data_src img = false ->
  exists img', finish_all pending images !! i = Some img' /\
               has_data_src img' = false.
Proof.
  revert images img. induction pending as [|pl pending IH];
    intros images img Hi Hm; [eauto|].
  simpl. destruct (decide (load_target pl = i)) as [He|Hne].
  - destruct (finish_at images pl) as (v & _ & Hf).
    apply (IH _ (show_loaded Number_toString v
                   "opacity 0.3s ease, filter 0.3s ease" img)).
    + rewrite Hf, He, list_lookup_alter_eq, Hi. reflexivity.
    + unfold has_data_src. simpl. rewrite lookup_delete_eq. reflexivity.
  - apply (IH _ img); [|exact Hm]. rewrite finish_other by exact Hne. exact Hi.
Qed.

(** After the pending loads have finished, the images with a deferred
    source are those that had one and that no load was for. *)
Lemma finish_all_marked (pending : list PendingLoad)
  (images : list ImgElement) (i : nat) :
  (exists img, finish_all pending images !! i = Some img /\
               has_data_src img = true) <->
  (exists img, images !! i = Some img /\ has_data_src img = true) /\
  (forall pl, pl ∈ pending -> load_target pl <> i).
Proof.
  revert images. induction pending as [|pl pending IH]; intros images.
  - simpl. split; [intros H; split; [exact H|]|tauto].
    intros pl Hin. apply elem_of_nil in Hin. destruct Hin.
  - simpl. rewrite IH. split.
    + intros ((img & Hi & Hm) & Hrest).
      destruct (decide (load_target pl = i)) as [He|Hne].
      * destruct (finish_at images pl) as (v & _ & Hf).
        rewrite Hf, He, list_lookup_alter_eq in Hi.
        destruct (images !! i); [|discriminate]. simpl in Hi.
        injection Hi as <-. unfold has_data_src in Hm. simpl in Hm.
        rewrite lookup_delete_eq in Hm. discriminate Hm.
      * rewrite finish_other in Hi by exact Hne.
        split; [eauto|]. intros pl' Hin.
        apply elem_of_cons in Hin as [-> | Hin]; [exact Hne | auto].
    + intros ((img & Hi & Hm) & Hall).
      assert (Hne : load_target pl <> i) by (apply Hall; left).
      split; [|intros pl' Hin; apply Hall; right; exact Hin].
      exists img. rewrite finish_other by exact Hne. auto.
Qed.

(** While loads are under way, the observer watches the images that carry
    a deferred source and that no pending load is for. *)
Lemma on_entry_watches (st : LazyState) (entry : IntersectionEntry) :
  (forall i, i ∈ observed st <->
     (exists img, page_images st !! i = Some img /\ has_data_src img = true) /\
     (forall pl, pl ∈ loading st -> load_target pl <> i)) ->
  (forall i, i ∈ observed (entry_step st entry) <->
     (exists img, page_images (entry_step st entry) !! i = Some img /\
                  has_data_src img = true) /\
     (forall pl, pl ∈ loading (entry_step st entry) -> load_target pl <> i)).
Proof.
  intros Hinv. unfold on_entry.
  destruct (isIntersecting entry); [|exact Hinv].
  destruct (page_images st !! target entry) as [img|] eqn:Ht; [|exact Hinv].
  intros i. simpl. rewrite elem_of_difference, elem_of_singleton, (Hinv i).
  assert (Hstart : load_target (start_load Number_toString (target entry) img)
                   = target entry).
  { unfold start_load.
    destruct (optimizer_call Number_toString img) as [[a b] c]. reflexivity. }
  destruct (decide (i = target entry)) as [->|Hne].
  - split; [tauto|]. intros [_ Hall]. exfalso.
    apply (Hall (start_load Number_toString (target entry) img));
      [|exact Hstart].
    apply elem_of_app. right. left.
  - rewrite list_lookup_insert_ne by congruence.
    split.
    + intros [[Hm Hall] _]. split; [exact Hm|].
      intros pl Hin. apply elem_of_app in Hin as [Hin | Hin]; [auto|].
      apply list_elem_of_singleton in Hin. subst pl. rewrite Hstart.
      congruence.
    + intros [Hm Hall]. split; [|exact Hne]. split; [exact Hm|].
      intros pl Hin. apply Hall. apply elem_of_app. left. exact Hin.
Qed.

Lemma callback_watches (entries : list IntersectionEntry) (st : LazyState) :
  (forall i, i ∈ observed st <->
     (exists img, page_images st !! i = Some img /\ has_data_src img = true) /\
     (forall pl, pl ∈ loading st -> load_target pl <> i)) ->
  (forall i, i ∈ observed (callback entries st) <->
     (exists img, page_images (callback entries st) !! i = Some img /\
                  has_data_src img = true) /\
     (forall pl, pl ∈ loading (callback entries st) -> load_target pl <> i)).
Proof.
  revert st. induction entries as [|entry entries IH]; intros st Hinv;
    [exact Hinv|].
  simpl. apply IH, on_entry_watches, Hinv.
Qed.

Lemma batch_observes_pending (entries : list IntersectionEntry)
  (st : LazyState) :
  observes_pending st -> loading st = [] ->
  observes_pending (settled (callback entries st)).
Proof.
  intros Hinv Hnone.
  assert (Hmid := callback_watches entries st).
  intros i. unfold settle. simpl. rewrite finish_all_marked.
  apply Hmid. intros k. rewrite (Hinv k), Hnone. split; [|tauto].
  intros H. split; [exact H|]. intros pl Hin.
  apply elem_of_nil in Hin. destruct Hin.
Qed.

Lemma on_resize_observes_pending (w : float) (st : LazyState) :
  observes_pending st -> observes_pending (on_resize Number_toString w st).
Proof.
  intros Hinv i. unfold on_resize. simpl. rewrite (Hinv i), responsive_lookup.
  split.
  - intros (img & Hi & Hm). rewrite Hi. simpl. rewrite Hm.
    eexists. split; [reflexivity|]. rewrite set_dataset_maxWidth_marked. exact Hm.
  - intros (img' & Hi & Hm).
    destruct (page_images st !! i) as [img|]; [|discriminate].
    exists img. split; [reflexivity|]. simpl in Hi. injection Hi as <-.
    destruct (has_data_src img) eqn:E; [reflexivity|congruence].
Qed.

(** X11: after [setupLazyLoading], and after any sequence of observer
    batches and window resizes, the observer watches exactly the images
    that still carry a deferred source: no loaded image is watched, and no
    pending image is forgotten. *)
Theorem lazy_loading_observes_pending (images : list ImgElement)
  (evs : list lazy_event) :
  observes_pending
    (lazy_run decode toDataURL Number_toString evs (setupLazyLoading images)).
Proof.
  unfold lazy_run.
  assert (H0 : observes_pending (setupLazyLoading images) /\
               loading (setupLazyLoading images) = [])
    by (split; [apply setup_observes_pending | reflexivity]).
  revert H0. generalize (setupLazyLoading images).
  assert (H : forall st,
             observes_pending st /\ loading st = [] ->
             observes_pending (fold_left
               (lazy_step decode toDataURL Number_toString) evs st) /\
             loading (fold_left
               (lazy_step decode toDataURL Number_toString) evs st) = []).
  { induction evs as [|ev evs IH]; intros st Hinv; [exact Hinv|].
    simpl. apply IH. destruct Hinv as [Hinv Hnone].
    destruct ev as [entries|w]; simpl.
    - split; [apply batch_observes_pending; assumption | reflexivity].
    - split; [apply on_resize_observes_pending, Hinv | exact Hnone]. }
  intros st Hst. apply H, Hst.
Qed.

End LazyLoading.

(** ** One batch of the intersection observer *)

Section ObserverBatch.

Variable decode : value -> image_event.
Variable toDataURL : value -> Size -> float -> string.
Variable Number_toString : float -> string.

Local Abbreviation entry_step := (on_entry Number_toString).
Local Abbreviation callback := (observer_callback Number_toString).
Local Abbreviation finish_all :=
  (finish_loads decode toDataURL Number_toString).
Local Abbreviation settled := (settle decode toDataURL Number_toString).
Local Abbreviation load_image :=
  (loadOptimizedImage decode toDataURL Number_toString).

Lemma show_loading_twice (img : ImgElement) :
  show_loading (show_loading img) = show_loading img.
Proof. reflexivity. Qed.

Lemma start_load_loading (t : nat) (img : ImgElement) :
  start_load Number_toString t (show_loading img)
  = start_load Number_toString t img.
Proof. reflexivity. Qed.









(** X13: the callback touches nothing else: an image that no intersecting
    entry of the batch names is left as it is, and is watched after the
    batch if and only if it was watched before. *)
Theorem observer_callback_frame (entries : list IntersectionEntry)
  (st : LazyState) (i : nat) :
  (forall entry, entry ∈ entries -> isIntersecting entry = true ->
                 target entry <> i) ->
  page_images (callback entries st) !! i = page_images st !! i /\
  (i ∈ observed (callback entries st) <-> i ∈ observed st).
Proof.
  revert st. induction entries as [|entry entries IH]; intros st Hother;
    [tauto|].
  simpl.
  destruct (IH (entry_step st entry)) as [Himg Hobs].
  { intros e He. apply Hother. right. exact He. }
  rewrite Himg, Hobs. unfold on_entry.
  destruct (isIntersecting entry) eqn:Hint; [|tauto].
  destruct (page_images st !! target entry); [|tauto].
  specialize (Hother entry ltac:(left) Hint). simpl.
  rewrite list_lookup_insert_ne by exact Hother.
  split; [reflexivity|].
  rewrite elem_of_difference, elem_of_singleton. intuition congruence.
Qed.

End ObserverBatch.

(** ** Gallery: opening, navigating, and what is shown *)

Lemma galleryData_five_images (houseType : string) (items : list string) :
  galleryData !! houseType = Some items -> length items = 5%nat.
Proof.
  unfold galleryData. cbn [list_to_map foldr uncurry fst snd].
  intros H.
  repeat (apply lookup_insert_Some in H as [[_ <-] | [_ H]]; [reflexivity|]).
  rewrite lookup_empty in H. discriminate H.
Qed.

Section GalleryTraces.

Variable decode : value -> image_event.
Variable toDataURL : value -> Size -> float -> string.
Variable Number_toString : float -> string.

Local Abbreviation display := (displayOptimizedImage decode toDataURL Number_toString).
Local Abbreviation next := (nextImage decode toDataURL Number_toString).
Local Abbreviation prev := (prevImage decode toDataURL Number_toString).
Local Abbreviation open := (openGallery decode toDataURL Number_toString).
Local Abbreviation keypress := (handleKeyPress decode toDataURL Number_toString).
Local Abbreviation presses := (key_presses decode toDataURL Number_toString).
Local Abbreviation nexts := (next_times decode toDataURL Number_toString).

(** What the display routine leaves in [#gallery-images]. *)
Lemma display_shows (p : Page) (source : value) :
  collection_at (currentGallery p) (currentImageIndex p) = Some source ->
  exists shown,
    optimizeImage decode toDataURL source 800 0.9 = Fulfilled shown /\
    display p
    = (Done, set_gallery_photo fading_photo
               (set_gallery_images (img_html (ToString Number_toString shown))
                  (set_gallery_images loading_html p))).
Proof.
  intros Hat. unfold displayOptimizedImage. rewrite Hat.
  destruct (optimizeImage_fulfils decode toDataURL source 800 0.9) as [v Hv].
  exists v. rewrite Hv. split; reflexivity.
Qed.

Lemma next_gallery (p : Page) :
  currentGallery (snd (next p)) = currentGallery p.
Proof.
  unfold nextImage. destruct (collection_length (currentGallery p));
    [|reflexivity].
  destruct (display_frame decode toDataURL Number_toString
              (set_index
                 (num_rem (num_add (currentImageIndex p) (Int 1)) i) p))
    as (Hg & _).
  exact Hg.
Qed.

Lemma prev_gallery (p : Page) :
  currentGallery (snd (prev p)) = currentGallery p.
Proof.
  unfold prevImage. destruct (collection_length (currentGallery p));
    [|reflexivity].
  destruct (display_frame decode toDataURL Number_toString
              (set_index
                 (num_rem (num_add (num_sub (currentImageIndex p) (Int 1)) i) i)
                 p))
    as (Hg & _).
  exact Hg.
Qed.

Lemma next_valid_index (p : Page) (items : list string) (i : Z) :
  currentGallery p = Images items ->
  currentImageIndex p = Int i ->
  0 <= i < Z.of_nat (length items) ->
  currentImageIndex (snd (next p)) = Int ((i + 1) mod Z.of_nat (length items)).
Proof.
  intros Hg Hi Hr.
  rewrite (next_index decode toDataURL Number_toString p
             (Int (Z.of_nat (length items)))) by (rewrite Hg; reflexivity).
  rewrite Hi. simpl.
  destruct (Z.of_nat (length items) =? 0) eqn:E; [lia|].
  rewrite Z.rem_mod_nonneg by lia. reflexivity.
Qed.

Lemma prev_valid_index (p : Page) (items : list string) (i : Z) :
  currentGallery p = Images items ->
  currentImageIndex p = Int i ->
  0 <= i < Z.of_nat (length items) ->
  currentImageIndex (snd (prev p))
  = Int ((i - 1 + Z.of_nat (length items)) mod Z.of_nat (length items)).
Proof.
  intros Hg Hi Hr.
  rewrite (prev_index decode toDataURL Number_toString p
             (Int (Z.of_nat (length items)))) by (rewrite Hg; reflexivity).
  rewrite Hi. simpl.
  destruct (Z.of_nat (length items) =? 0) eqn:E; [lia|].
  rewrite Z.rem_mod_nonneg by lia. reflexivity.
Qed.

Lemma next_valid (p : Page) : valid_gallery p -> valid_gallery (snd (next p)).
Proof.
  intros (items & i & Hg & Hi & Hr).
  exists items, ((i + 1) mod Z.of_nat (length items)).
  split; [rewrite next_gallery; exact Hg|].
  split; [apply next_valid_index; assumption|].
  apply Z.mod_pos_bound. lia.
Qed.

Lemma prev_valid (p : Page) : valid_gallery p -> valid_gallery (snd (prev p)).
Proof.
  intros (items & i & Hg & Hi & Hr).
  exists items,
    ((i - 1 + Z.of_nat (length items)) mod Z.of_nat (length items)).
  split; [rewrite prev_gallery; exact Hg|].
  split; [apply prev_valid_index; assumption|].
  apply Z.mod_pos_bound. lia.
Qed.

Lemma keypress_valid (key : string) (p : Page) :
  valid_gallery p -> valid_gallery (keypress key p).
Proof.
  intros Hv. unfold handleKeyPress.
  destruct (String.eqb key "Escape").
  { destruct Hv as (items & i & H). exists items, i. exact H. }
  destruct (String.eqb key "ArrowLeft"); [apply prev_valid, Hv|].
  destruct (String.eqb key "ArrowRight"); [apply next_valid, Hv|].
  exact Hv.
Qed.


(** X15: a gallery that shows a valid image keeps doing so under any
    sequence of key presses: the collection stays non-empty and the index
    stays inside it. *)
Theorem key_presses_keep_gallery_valid (keys : list string) (p : Page) :
  valid_gallery p -> valid_gallery (presses keys p).
Proof.
  revert p. induction keys as [|key keys IH]; intros p Hv; [exact Hv|].
  simpl. apply IH, keypress_valid, Hv.
Qed.

(** X16: on a valid gallery, [prevImage] undoes [nextImage] and
    [nextImage] undoes [prevImage], as far as the index and the collection
    go. *)
Theorem next_prev_round_trip (p : Page) :
  valid_gallery p ->
  currentImageIndex (snd (prev (snd (next p)))) = currentImageIndex p /\
  currentImageIndex (snd (next (snd (prev p)))) = currentImageIndex p /\
  currentGallery (snd (prev (snd (next p)))) = currentGallery p /\
  currentGallery (snd (next (snd (prev p)))) = currentGallery p.
Proof.
  intros (items & i & Hg & Hi & Hr).
  set (n := Z.of_nat (length items)) in *.
  assert (Hn1 : 0 <= (i + 1) mod n < n) by (apply Z.mod_pos_bound; lia).
  assert (Hp1 : 0 <= (i - 1 + n) mod n < n) by (apply Z.mod_pos_bound; lia).
  repeat split.
  - rewrite (prev_valid_index (snd (next p)) items ((i + 1) mod n));
      [|rewrite next_gallery; exact Hg
       |apply next_valid_index; assumption
       |exact Hn1].
    rewrite Hi. f_equal. fold n.
    replace ((i + 1) mod n - 1 + n) with ((i + 1) mod n + (n - 1)) by lia.
    rewrite Zplus_mod_idemp_l.
    replace (i + 1 + (n - 1)) with (i + 1 * n) by lia.
    rewrite Z_mod_plus_full. apply Z.mod_small. lia.
  - rewrite (next_valid_index (snd (prev p)) items ((i - 1 + n) mod n));
      [|rewrite prev_gallery; exact Hg
       |apply prev_valid_index; assumption
       |exact Hp1].
    rewrite Hi. f_equal. fold n.
    rewrite Zplus_mod_idemp_l.
    replace (i - 1 + n + 1) with (i + 1 * n) by lia.
    rewrite Z_mod_plus_full. apply Z.mod_small. lia.
  - rewrite prev_gallery, next_gallery. reflexivity.
  - rewrite next_gallery, prev_gallery. reflexivity.
Qed.

(** X17: [k] calls of [nextImage] on a valid gallery of [n] images move
    the index from [i] to [(i + k) mod n]; [n] calls bring it back. *)
Theorem next_times_index (k : nat) (p : Page) (items : list string) (i : Z) :
  currentGallery p = Images items ->
  currentImageIndex p = Int i ->
  0 <= i < Z.of_nat (length items) ->
  currentImageIndex (nexts k p)
  = Int ((i + Z.of_nat k) mod Z.of_nat (length items)) /\
  currentImageIndex (nexts (length items) p) = Int i.
Proof.
  intros Hg Hi Hr.
  assert (H : forall k q j,
             currentGallery q = Images items ->
             currentImageIndex q = Int j ->
             0 <= j < Z.of_nat (length items) ->
             currentImageIndex (nexts k q)
             = Int ((j + Z.of_nat k) mod Z.of_nat (length items))).
  { clear. induction k as [|k IH]; intros q j Hg Hj Hr; simpl next_times.
    - rewrite Hj. f_equal. rewrite Z.add_0_r. symmetry.
      apply Z.mod_small. exact Hr.
    - rewrite (IH (snd (next q)) ((j + 1) mod Z.of_nat (length items)));
        [|rewrite next_gallery; exact Hg
         |apply next_valid_index; assumption
         |apply Z.mod_pos_bound; lia].
      f_equal. rewrite Zplus_mod_idemp_l. f_equal. lia. }
  split; [apply H; assumption|].
  rewrite (H (length items) p i Hg Hi Hr). f_equal.
  replace (i + Z.of_nat (length items))
    with (i + 1 * Z.of_nat (length items)) by lia.
  rewrite Z_mod_plus_full. apply Z.mod_small. exact Hr.
Qed.

(** X18: after [nextImage] on a valid gallery, [#gallery-images] has the
    markup of an [img] for the image at the new index: by the data URL of
    its 800-wide, quality 0.9 rendition if it decodes, and by its own path
    if it does not; that [img] is at opacity 0 with the fade-in handler
    installed, and its [load] event sets the transition and the
    opacity 1. *)
Theorem nextImage_shows_next (p : Page) (items : list string) (i : Z) :
  currentGallery p = Images items ->
  currentImageIndex p = Int i ->
  0 <= i < Z.of_nat (length items) ->
  exists path,
    items !! Z.to_nat ((i + 1) mod Z.of_nat (length items)) = Some path /\
    fst (next p) = Done /\
    (decode (Str path) = error ->
     gallery_images (snd (next p)) = img_html path) /\
    (forall w h, decode (Str path) = load w h ->
       gallery_images (snd (next p))
       = img_html (toDataURL (Str path) (calculateOptimalSize w h 800) 0.9)) /\
    gallery_photo (snd (next p)) = Some fading_photo /\
    gallery_photo (photo_load (snd (next p)))
    = Some {| photo_opacity := "1"; photo_transition := "opacity 0.3s ease";
            photo_onload := true |}.
Proof.
  intros Hg Hi Hr.
  set (n := Z.of_nat (length items)) in *.
  assert (Hb : 0 <= (i + 1) mod n < n) by (apply Z.mod_pos_bound; lia).
  destruct (lookup_lt_is_Some_2 items (Z.to_nat ((i + 1) mod n)) ltac:(lia))
    as [path Hpath].
  exists path. split; [exact Hpath|].
  unfold nextImage. rewrite Hg. cbn [collection_length]. fold n.
  rewrite Hi. cbn [num_add num_rem].
  destruct (n =? 0) eqn:E; [lia|]. rewrite Z.rem_mod_nonneg by lia.
  destruct (display_shows (set_index (Int ((i + 1) mod n)) p) (Str path))
    as (shown & Hshown & ->).
  { unfold set_index. simpl. rewrite Hg. simpl.
    destruct (0 <=? (i + 1) mod n) eqn:E0; [|lia].
    rewrite Hpath. reflexivity. }
  cbn [fst snd]. split; [reflexivity|]. simpl.
  split; [|split; [|split; reflexivity]].
  - intros Herr. unfold optimizeImage in Hshown. rewrite Herr in Hshown.
    simpl in Hshown. unfold onerror, optimizeImage_returned in Hshown.
    simpl in Hshown. injection Hshown as <-. reflexivity.
  - intros w h Hload. unfold optimizeImage in Hshown. rewrite Hload in Hshown.
    simpl in Hshown. unfold onload, optimizeImage_returned in Hshown.
    simpl in Hshown. injection Hshown as <-. reflexivity.
Qed.

(** While the collection is [undefined], as after [openGallery] with
    an unknown key, [nextImage] and [prevImage] throw before they change
    anything, and the arrow keys leave the page as it is. *)
Theorem navigation_without_collection (p : Page) :
  currentGallery p = NoCollection ->
  next p = (Threw TypeError, p) /\
  prev p = (Threw TypeError, p) /\
  keypress "ArrowLeft" p = p /\
  keypress "ArrowRight" p = p.
Proof.
  intros Hg. unfold handleKeyPress, nextImage, prevImage. rewrite Hg.
  repeat split.
Qed.

(** X19: an index that is NaN stays NaN under any sequence of key presses;
    only [openGallery] sets it anew. *)
Theorem key_presses_keep_nan (keys : list string) (p : Page) :
  currentImageIndex p = NotANumber ->
  currentImageIndex (presses keys p) = NotANumber.
Proof.
  revert p. induction keys as [|key keys IH]; intros p Hi; [exact Hi|].
  simpl. apply IH. unfold handleKeyPress.
  destruct (String.eqb key "Escape"); [exact Hi|].
  destruct (String.eqb key "ArrowLeft").
  { destruct (collection_length (currentGallery p)) as [len|] eqn:Hlen.
    - rewrite (prev_index decode toDataURL Number_toString p len Hlen), Hi.
      reflexivity.
    - unfold prevImage. rewrite Hlen. exact Hi. }
  destruct (String.eqb key "ArrowRight"); [|exact Hi].
  destruct (collection_length (currentGallery p)) as [len|] eqn:Hlen.
  - rewrite (next_index decode toDataURL Number_toString p len Hlen), Hi.
    reflexivity.
  - unfold nextImage. rewrite Hlen. exact Hi.
Qed.

End GalleryTraces.

(** ** Accordion: range, consistency and period *)

Lemma closed_after_open (items : list AccordionItem) (i : nat) :
  close_item <$> alter open_item i (close_item <$> items)
  = close_item <$> items.
Proof.
  apply list_eq. intros k. rewrite list_lookup_fmap.
  destruct (decide (i = k)) as [->|Hne].
  - rewrite list_lookup_alter_eq, list_lookup_fmap.
    destruct (items !! k); reflexivity.
  - rewrite list_lookup_alter_ne by exact Hne. rewrite list_lookup_fmap.
    destruct (items !! k); reflexivity.
Qed.

Lemma toggle_closed (items : list AccordionItem) (i : nat) :
  (i < length items)%nat ->
  toggleAccordion i (close_item <$> items)
  = Some (alter open_item i (close_item <$> items)).
Proof.
  intros Hi. destruct (lookup_lt_is_Some_2 items i Hi) as [item Hitem].
  unfold toggleAccordion. rewrite list_lookup_fmap, Hitem. simpl.
  rewrite closed_idempotent. reflexivity.
Qed.

Lemma toggle_opened (items : list AccordionItem) (i : nat) :
  (i < length items)%nat ->
  toggleAccordion i (alter open_item i (close_item <$> items))
  = Some (close_item <$> items).
Proof.
  intros Hi. destruct (lookup_lt_is_Some_2 items i Hi) as [item Hitem].
  unfold toggleAccordion.
  rewrite list_lookup_alter_eq, list_lookup_fmap, Hitem. simpl.
  rewrite closed_after_open. reflexivity.
Qed.

(** X20: [toggleAccordion] fails exactly on an index that names no item,
    and when it succeeds the accordion has as many items as before. *)
Theorem toggleAccordion_range (items : list AccordionItem) (i : nat) :
  (toggleAccordion i items = None <-> (length items <= i)%nat) /\
  (forall s, toggleAccordion i items = Some s -> length s = length items).
Proof.
  split.
  - unfold toggleAccordion. rewrite <- lookup_ge_None.
    destruct (items !! i) as [item|]; [|tauto].
    destruct (negb (item_active item)); split; discriminate.
  - intros s. unfold toggleAccordion.
    destruct (items !! i) as [item|]; [|discriminate].
    destruct (negb (item_active item)); intros H; injection H as <-.
    + rewrite length_alter. apply length_fmap.
    + apply length_fmap.
Qed.

(** X21: after a successful [toggleAccordion] every item is consistent: its
    content is active exactly when the item is, and its icon is the cross
    for an expanded item and the plus sign for a collapsed one, whatever
    the markup was before. *)
Theorem toggleAccordion_consistent (items s : list AccordionItem) (i : nat) :
  toggleAccordion i items = Some s ->
  Forall consistent_item s.
Proof.
  unfold toggleAccordion.
  destruct (items !! i) as [item|]; [|discriminate].
  assert (Hc : Forall consistent_item (close_item <$> items)).
  { apply Forall_fmap, Forall_forall. intros x _. split; reflexivity. }
  destruct (negb (item_active item)); intros H; injection H as <-.
  - apply Forall_alter; [exact Hc|]. intros x _ _. split; reflexivity.
  - exact Hc.
Qed.

Lemma toggleAccordion_consistent_three_items :
  Forall consistent_item
    [ {| item_active := true; content_active := true; icon_text := "×" |};
      {| item_active := false; content_active := false; icon_text := "+" |};
      {| item_active := false; content_active := false; icon_text := "+" |} ].
Proof.
  apply (toggleAccordion_consistent three_items _ 0). reflexivity.
Defined.

(** X22: toggling has period two after the first call: three calls of
    [toggleAccordion] on the same index leave the accordion as one call
    does. *)
Theorem toggleAccordion_thrice (items s1 s2 s3 : list AccordionItem) (i : nat) :
  toggleAccordion i items = Some s1 ->
  toggleAccordion i s1 = Some s2 ->
  toggleAccordion i s2 = Some s3 ->
  s3 = s1.
Proof.
  intros H1 H2 H3.
  assert (Hi : (i < length items)%nat).
  { apply lookup_lt_is_Some. unfold toggleAccordion in H1.
    destruct (items !! i); [eauto | discriminate]. }
  destruct (toggleAccordion_valid items i Hi) as (item & _ & H1').
  rewrite H1' in H1. injection H1 as <-.
  destruct (item_active item).
  - rewrite (toggle_closed items i Hi) in H2. injection H2 as <-.
    rewrite (toggle_opened items i Hi) in H3. injection H3 as <-.
    reflexivity.
  - rewrite (toggle_opened items i Hi) in H2. injection H2 as <-.
    rewrite (toggle_closed items i Hi) in H3. injection H3 as <-.
    reflexivity.
Qed.

Lemma toggleAccordion_thrice_three_items :
  toggleAccordion 1 three_items = Some (close_item <$> three_items) /\
  toggleAccordion 1 (close_item <$> three_items)
  = Some (alter open_item 1%nat (close_item <$> three_items)) /\
  exists s3,
    toggleAccordion 1 (alter open_item 1%nat (close_item <$> three_items))
    = Some s3 /\
    s3 = close_item <$> three_items.
Proof.
  split; [reflexivity|]. split; [reflexivity|].
  eexists. split; [reflexivity|].
  apply (toggleAccordion_thrice three_items
           (close_item <$> three_items)
           (alter open_item 1%nat (close_item <$> three_items))
           _ 1%nat); reflexivity.
Defined.

(** ** The further properties on sample pages *)

Lemma loadOptimizedImage_outcome_hero :
  let r := loadOptimizedImage decode_fails sample_toDataURL
             sample_Number_toString zero_override_img in
  fst r = Done /\
  dataset (snd r) !! "src" = None /\
  dataset (snd r) !! "quality" = Some "0" /\
  src (snd r) = "imgs/hero/hero-bg.jpg".
Proof.
  destruct (loadOptimizedImage_outcome decode_fails sample_toDataURL
              sample_Number_toString zero_override_img
              "imgs/hero/hero-bg.jpg" eq_refl)
    as (Hdone & Hdata & _ & _ & _ & Herr & _).
  split; [exact Hdone|]. rewrite Hdata.
  split; [reflexivity|]. split; [reflexivity|].
  apply Herr. reflexivity.
Defined.

Lemma loadOptimizedImage_twice_hero :
  src (snd (loadOptimizedImage decode_fails sample_toDataURL
              sample_Number_toString
              (snd (loadOptimizedImage decode_fails sample_toDataURL
                      sample_Number_toString zero_override_img))))
  = "undefined".
Proof.
  apply (loadOptimizedImage_twice decode_fails sample_toDataURL
           sample_Number_toString zero_override_img).
  reflexivity.
Defined.

Lemma handleResponsiveImages_sets_breakpoint_phone :
  exists img',
    handleResponsiveImages sample_width_toString 375
      [zero_override_img; empty_override_img] !! 0%nat = Some img' /\
    snd (fst (optimizer_call sample_width_toString img')) = 400%float.
Proof.
  destruct (handleResponsiveImages_sets_breakpoint sample_width_toString 375
              [zero_override_img; empty_override_img] 0 zero_override_img
              eq_refl eq_refl eq_refl eq_refl)
    as (img' & Hi & _ & Hm).
  exists img'. split; [exact Hi|].
  destruct (Hm eq_refl) as (Hw & _). exact Hw.
Defined.


Lemma observer_callback_frame_first :
  page_images
    (observer_callback sample_Number_toString
       [ {| target := 0; isIntersecting := false |};
         {| target := 1; isIntersecting := true |} ] two_lazy_images)
    !! 0%nat = Some zero_override_img.
Proof.
  apply (observer_callback_frame sample_Number_toString
           [ {| target := 0; isIntersecting := false |};
             {| target := 1; isIntersecting := true |} ] two_lazy_images 0).
  intros entry Hin Hint.
  apply elem_of_cons in Hin as [-> | Hin]; [discriminate Hint|].
  apply elem_of_cons in Hin as [-> | Hin]; [discriminate|].
  apply elem_of_nil in Hin. destruct Hin.
Defined.


Lemma abc_page_valid (i : Z) : 0 <= i < 3 -> valid_gallery (abc_page i).
Proof.
  intros Hi. exists ["a.jpg"; "b.jpg"; "c.jpg"], i.
  split; [reflexivity|]. split; [reflexivity|]. simpl. lia.
Qed.

Lemma key_presses_keep_gallery_valid_abc :
  valid_gallery
    (key_presses decode_fails sample_toDataURL sample_Number_toString
       ["ArrowRight"; "ArrowRight"; "Escape"; "Tab"; "ArrowLeft"] (abc_page 1)).
Proof.
  apply (key_presses_keep_gallery_valid decode_fails sample_toDataURL
           sample_Number_toString).
  apply abc_page_valid. lia.
Defined.

Lemma next_prev_round_trip_abc :
  currentImageIndex
    (snd (prevImage decode_fails sample_toDataURL sample_Number_toString
            (snd (nextImage decode_fails sample_toDataURL
                    sample_Number_toString (abc_page 2))))) = Int 2.
Proof.
  apply (next_prev_round_trip decode_fails sample_toDataURL
           sample_Number_toString (abc_page 2)).
  apply abc_page_valid. lia.
Defined.

Lemma next_times_index_abc :
  currentImageIndex
    (next_times decode_fails sample_toDataURL sample_Number_toString 7
       (abc_page 1)) = Int 2.
Proof.
  apply (next_times_index decode_fails sample_toDataURL
           sample_Number_toString 7 (abc_page 1) ["a.jpg"; "b.jpg"; "c.jpg"] 1);
    [reflexivity | reflexivity | simpl; lia].
Defined.

Lemma nextImage_shows_next_abc :
  exists path,
    ["a.jpg"; "b.jpg"; "c.jpg"] !! Z.to_nat ((2 + 1) mod 3) = Some path /\
    gallery_images
      (snd (nextImage decode_fails sample_toDataURL sample_Number_toString
              (abc_page 2))) = img_html path.
Proof.
  destruct (nextImage_shows_next decode_fails sample_toDataURL
              sample_Number_toString (abc_page 2)
              ["a.jpg"; "b.jpg"; "c.jpg"] 2 eq_refl eq_refl
              ltac:(simpl; lia))
    as (path & Hpath & _ & Herr & _).
  exists path. split; [exact Hpath|]. apply Herr. reflexivity.
Defined.

Lemma navigation_without_collection_after_failed_open :
  handleKeyPress decode_fails sample_toDataURL sample_Number_toString
    "ArrowRight" (set_gallery NoCollection (Int 0) closed_page)
  = set_gallery NoCollection (Int 0) closed_page.
Proof.
  apply (navigation_without_collection decode_fails sample_toDataURL
           sample_Number_toString (set_gallery NoCollection (Int 0) closed_page)).
  reflexivity.
Defined.

Lemma key_presses_keep_nan_abc :
  currentImageIndex
    (key_presses decode_fails sample_toDataURL sample_Number_toString
       ["ArrowRight"; "ArrowLeft"; "Escape"]
       (set_gallery (Images ["a.jpg"; "b.jpg"; "c.jpg"]) NotANumber closed_page))
  = NotANumber.
Proof.
  apply (key_presses_keep_nan decode_fails sample_toDataURL
           sample_Number_toString).
  reflexivity.
Defined.

Lemma toggleAccordion_range_three_items :
  toggleAccordion 3 three_items = None /\
  length (close_item <$> three_items) = length three_items.
Proof.
  destruct (toggleAccordion_range three_items 3) as [Hnone _].
  destruct (toggleAccordion_range three_items 1) as [_ Hlen].
  split; [apply Hnone; simpl; lia|].
  apply Hlen. reflexivity.
Defined.

(** ** Scroll animation: elements are revealed once and for all *)

Lemma animate_entry_length (els : list Animated) (entry : IntersectionEntry) :
  length (animate_entry els entry) = length els.
Proof.
  unfold animate_entry. destruct (isIntersecting entry); [|reflexivity].
  apply length_alter.
Qed.

Lemma animate_callback_length (entries : list IntersectionEntry)
  (els : list Animated) :
  length (animate_callback entries els) = length els.
Proof.
  revert els. induction entries as [|entry entries IH]; intros els;
    [reflexivity|].
  simpl. rewrite IH. apply animate_entry_length.
Qed.

Lemma animate_run_length (batches : list (list IntersectionEntry))
  (els : list Animated) :
  length (animate_run batches els) = length els.
Proof.
  revert els. induction batches as [|entries batches IH]; intros els;
    [reflexivity|].
  simpl. rewrite IH. apply animate_callback_length.
Qed.

Lemma reveal_reveal (el : Animated) : reveal (reveal el) = reveal el.
Proof. reflexivity. Qed.

(** One entry leaves an element as it is or reveals it. *)
Lemma animate_entry_state (els : list Animated) (entry : IntersectionEntry)
  (i : nat) (el : Animated) :
  els !! i = Some el \/ els !! i = Some (reveal el) ->
  animate_entry els entry !! i = Some el \/
  animate_entry els entry !! i = Some (reveal el).
Proof.
  intros Hi. unfold animate_entry.
  destruct (isIntersecting entry); [|exact Hi].
  destruct (decide (target entry = i)) as [->|Hne].
  - right. rewrite list_lookup_alter_eq.
    destruct Hi as [-> | ->]; reflexivity.
  - rewrite list_lookup_alter_ne by exact Hne. exact Hi.
Qed.

Lemma animate_callback_state (entries : list IntersectionEntry)
  (els : list Animated) (i : nat) (el : Animated) :
  els !! i = Some el \/ els !! i = Some (reveal el) ->
  animate_callback entries els !! i = Some el \/
  animate_callback entries els !! i = Some (reveal el).
Proof.
  revert els. induction entries as [|entry entries IH]; intros els Hi;
    [exact Hi|].
  simpl. apply IH, animate_entry_state, Hi.
Qed.

Lemma animate_run_state (batches : list (list IntersectionEntry))
  (els : list Animated) (i : nat) (el : Animated) :
  els !! i = Some el \/ els !! i = Some (reveal el) ->
  animate_run batches els !! i = Some el \/
  animate_run batches els !! i = Some (reveal el).
Proof.
  revert els. induction batches as [|entries batches IH]; intros els Hi;
    [exact Hi|].
  simpl. apply IH, animate_callback_state, Hi.
Qed.

(** A revealed element stays revealed. *)
Lemma animate_callback_revealed (entries : list IntersectionEntry)
  (els : list Animated) (i : nat) (el : Animated) :
  els !! i = Some (reveal el) ->
  animate_callback entries els !! i = Some (reveal el).
Proof.
  intros Hi.
  destruct (animate_callback_state entries els i (reveal el) (or_introl Hi))
    as [H | H]; [exact H|].
  rewrite reveal_reveal in H. exact H.
Qed.

Lemma animate_run_revealed (batches : list (list IntersectionEntry))
  (els : list Animated) (i : nat) (el : Animated) :
  els !! i = Some (reveal el) ->
  animate_run batches els !! i = Some (reveal el).
Proof.
  intros Hi.
  destruct (animate_run_state batches els i (reveal el) (or_introl Hi))
    as [H | H]; [exact H|].
  rewrite reveal_reveal in H. exact H.
Qed.

(** An intersecting entry reveals its target. *)
Lemma animate_callback_reveals (entries : list IntersectionEntry)
  (els : list Animated) (entry : IntersectionEntry) (el : Animated) :
  entry ∈ entries ->
  isIntersecting entry = true ->
  els !! target entry = Some el \/ els !! target entry = Some (reveal el) ->
  animate_callback entries els !! target entry = Some (reveal el).
Proof.
  revert els. induction entries as [|e entries IH]; intros els Hin Hint Hi.
  - apply elem_of_nil in Hin. destruct Hin.
  - simpl. apply elem_of_cons in Hin as [<- | Hin].
    + apply animate_callback_revealed. unfold animate_entry.
      rewrite Hint, list_lookup_alter_eq.
      destruct Hi as [-> | ->]; reflexivity.
    + apply IH; [exact Hin | exact Hint|].
      apply animate_entry_state, Hi.
Qed.

(** Entries that do not intersect, or name other elements, change
    nothing. *)
Lemma animate_callback_frame (entries : list IntersectionEntry)
  (els : list Animated) (i : nat) :
  (forall entry, entry ∈ entries -> isIntersecting entry = true ->
                 target entry <> i) ->
  animate_callback entries els !! i = els !! i.
Proof.
  revert els. induction entries as [|e entries IH]; intros els Hother;
    [reflexivity|].
  simpl. rewrite IH by (intros entry He; apply Hother; right; exact He).
  unfold animate_entry. destruct (isIntersecting e) eqn:Hint; [|reflexivity].
  apply list_lookup_alter_ne. apply Hother; [left | exact Hint].
Qed.

(** X23: the scroll animation reveals for good.  After the set-up and any
    batches of the observer, an element is hidden or revealed; it is
    revealed if some batch reported it as intersecting, however often it
    left the viewport afterwards, and hidden if none did. *)
Theorem animation_reveals_for_good (els : list Animated)
  (batches : list (list IntersectionEntry)) (i : nat) (el : Animated) :
  els !! i = Some el ->
  let final := animate_run batches (animate_setup els) in
  (final !! i = Some (hide el) \/ final !! i = Some (reveal (hide el))) /\
  ((exists entries entry,
       entries ∈ batches /\ entry ∈ entries /\
       isIntersecting entry = true /\ target entry = i) ->
   final !! i = Some (reveal (hide el))) /\
  ((forall entries entry,
       entries ∈ batches -> entry ∈ entries ->
       isIntersecting entry = true -> target entry <> i) ->
   final !! i = Some (hide el)).
Proof.
  intros Hi. cbn zeta.
  assert (H0 : animate_setup els !! i = Some (hide el)).
  { unfold animate_setup. rewrite list_lookup_fmap, Hi. reflexivity. }
  generalize dependent (animate_setup els). intros st H0.
  split; [apply animate_run_state; left; exact H0|]. split.
  - intros (entries & entry & Hb & He & Hint & <-).
    assert (Hst : st !! target entry = Some (hide el) \/
                  st !! target entry = Some (reveal (hide el)))
      by (left; exact H0).
    clear H0 Hi. revert st Hst.
    induction batches as [|b batches IH]; intros st Hst.
    + apply elem_of_nil in Hb. destruct Hb.
    + simpl. apply elem_of_cons in Hb as [<- | Hb].
      * apply animate_run_revealed.
        apply animate_callback_reveals; assumption.
      * apply IH; [exact Hb|]. apply animate_callback_state, Hst.
  - intros Hother. clear Hi. revert st H0.
    induction batches as [|b batches IH]; intros st H0; [exact H0|].
    simpl. apply IH.
    + intros entries entry Hb. apply Hother. right. exact Hb.
    + rewrite animate_callback_frame; [exact H0|].
      intros entry He. apply (Hother b entry); [left | exact He].
Qed.

(** ** Gallery: opening twice, closing once, and images that do not exist *)

Section GalleryEdges.

Variable decode : value -> image_event.
Variable toDataURL : value -> Size -> float -> string.
Variable Number_toString : float -> string.

Local Abbreviation display := (displayOptimizedImage decode toDataURL Number_toString).
Local Abbreviation open := (openGallery decode toDataURL Number_toString).

Lemma open_configured_state (houseType : string) (items : list string)
  (p : Page) :
  galleryData !! houseType = Some items ->
  exists html,
    open houseType p
    = (Done,
       {| currentGallery := Images items;
          currentImageIndex := Int 0;
          modal_display := "block";
          body_overflow := "hidden";
          keydown_listeners := {[ "handleKeyPress" ]} ∪ keydown_listeners p;
          gallery_images := html;
          gallery_photo := Some fading_photo |}).
Proof.
  intros Hk. pose proof (galleryData_five_images _ _ Hk) as H5.
  destruct items as [|first rest]; [discriminate H5|].
  unfold openGallery, galleryData_get. rewrite Hk.
  destruct (display_shows decode toDataURL Number_toString
              (set_gallery (Images (first :: rest)) (Int 0) p)
              (Str first) eq_refl) as (shown & _ & ->).
  eexists. reflexivity.
Qed.

(** X24: the key-press handler is registered once however often a gallery
    is opened: after two openings and one [closeGallery] the handler is
    gone, the modal is hidden and the page scrolls again, while the
    collection opened last and the index 0 remain. *)
Theorem open_twice_close_once (first second : string)
  (items1 items2 : list string) (p : Page) :
  galleryData !! first = Some items1 ->
  galleryData !! second = Some items2 ->
  let p' := closeGallery (snd (open second (snd (open first p)))) in
  modal_display p' = "none" /\
  body_overflow p' = "auto" /\
  keydown_listeners p' = keydown_listeners p ∖ {[ "handleKeyPress" ]} /\
  currentGallery p' = Images items2 /\
  currentImageIndex p' = Int 0.
Proof.
  intros H1 H2.
  destruct (open_configured_state first items1 p H1) as (html1 & ->).
  cbn [snd].
  destruct (open_configured_state second items2
              {| currentGallery := Images items1;
                 currentImageIndex := Int 0;
                 modal_display := "block";
                 body_overflow := "hidden";
                 keydown_listeners :=
                   {[ "handleKeyPress" ]} ∪ keydown_listeners p;
                 gallery_images := html1;
                 gallery_photo := Some fading_photo |} H2) as (html2 & ->).
  cbn. repeat split.
  apply set_eq. intros h.
  rewrite !elem_of_difference, !elem_of_union, !elem_of_singleton. tauto.
Qed.


End GalleryEdges.

Lemma animation_reveals_for_good_sample :
  animate_run
    [ [ {| target := 1; isIntersecting := true |} ];
      [ {| target := 1; isIntersecting := false |} ] ]
    (animate_setup
       [ {| anim_opacity := ""; anim_transform := ""; anim_transition := "" |};
         {| anim_opacity := ""; anim_transform := ""; anim_transition := "" |} ])
    !! 1%nat
  = Some {| anim_opacity := "1"; anim_transform := "translateY(0)";
            anim_transition := "opacity 0.6s ease, transform 0.6s ease" |}.
Proof.
  apply (animation_reveals_for_good
           [ {| anim_opacity := ""; anim_transform := ""; anim_transition := "" |};
             {| anim_opacity := ""; anim_transform := ""; anim_transition := "" |} ]
           [ [ {| target := 1; isIntersecting := true |} ];
             [ {| target := 1; isIntersecting := false |} ] ]
           1 {| anim_opacity := ""; anim_transform := ""; anim_transition := "" |}
           eq_refl).
  exists [ {| target := 1; isIntersecting := true |} ],
         {| target := 1; isIntersecting := true |}.
  split; [left|]. split; [left|]. split; reflexivity.
Defined.

Lemma open_twice_close_once_sakura_moon :
  let p' := closeGallery
              (snd (openGallery decode_fails sample_toDataURL
                      sample_Number_toString "moon"
                      (snd (openGallery decode_fails sample_toDataURL
                              sample_Number_toString "sakura" closed_page)))) in
  modal_display p' = "none" /\
  keydown_listeners p' = keydown_listeners closed_page ∖ {[ "handleKeyPress" ]}.
Proof.
  destruct (open_twice_close_once decode_fails sample_toDataURL
              sample_Number_toString "sakura" "moon" _ _ closed_page
              eq_refl eq_refl) as (Hm & _ & Hl & _).
  split; [exact Hm | exact Hl].
Defined.

